(** * localtunnel: TunnelCluster.js

    A shallow embedding of [src/lib/TunnelCluster.js]: the
    [LocalConnectionListener] transform and the event handlers that
    [TunnelCluster.open] installs on the remote socket and on each local
    socket.  Handlers are functions in a small state-and-exception monad;
    every call the source makes on a socket, on a timer or on the emitter
    is appended to a log, so that orderings can be stated.

    The Node.js runtime is modelled only as far as the handlers observe it:
    [Buffer.toString] (UTF-8 decoding to UTF-16 code units),
    [String.prototype.includes], the regular expression of the 'data'
    handler, once-listeners, [socket.destroyed], and a millisecond clock
    for [setTimeout]. *)

From Stdlib Require Import NArith QArith Lia.
From Stdlib Require Import Strings.String Strings.Ascii Strings.Byte DecimalString.
From stdpp Require Import base list strings.

Local Open Scope N_scope.

(** ** Buffers and JavaScript strings *)

(** A [Buffer] is a sequence of bytes; a JavaScript string is a sequence of
    UTF-16 code units. *)
Definition Buffer := list byte.
Definition jsstring := list N.

(** The code units of an ASCII literal of the source. *)
Definition lit (s : string) : jsstring :=
  map (fun b => Byte.to_N b) (list_byte_of_string s).

(** The bytes of an ASCII literal. *)
Definition bytes (s : string) : Buffer := list_byte_of_string s.

Module Utf8.

(** The decoder behind [buf.toString()]: the WHATWG UTF-8 decoder, which
    replaces every maximal ill-formed subsequence by U+FFFD.  [needed] is
    the number of continuation bytes still expected. *)
Record state := mk {
  needed : nat;
  cp : N;
  lower : N;
  upper : N
}.

Definition init : state := mk 0 0 0x80 0xBF.

(** UTF-16 encoding of a code point. *)
Definition utf16 (c : N) : jsstring :=
  if c <? 0x10000 then [c]
  else [0xD800 + N.shiftr (c - 0x10000) 10; 0xDC00 + N.land (c - 0x10000) 0x3FF].

Definition replacement : N := 0xFFFD.

(** A byte read when no sequence is pending. *)
Definition start (b : N) : jsstring * state :=
  if b <=? 0x7F then ([b], init)
  else if (0xC2 <=? b) && (b <=? 0xDF) then ([], mk 1 (N.land b 0x1F) 0x80 0xBF)
  else if (0xE0 <=? b) && (b <=? 0xEF) then
    ([], mk 2 (N.land b 0xF)
            (if b =? 0xE0 then 0xA0 else 0x80)
            (if b =? 0xED then 0x9F else 0xBF))
  else if (0xF0 <=? b) && (b <=? 0xF4) then
    ([], mk 3 (N.land b 0x7)
            (if b =? 0xF0 then 0x90 else 0x80)
            (if b =? 0xF4 then 0x8F else 0xBF))
  else ([replacement], init).

(** One byte of input: the code units produced and the next state.  A byte
    that cannot continue the pending sequence ends it with U+FFFD and is
    read again from the initial state. *)
Definition step (st : state) (b : N) : jsstring * state :=
  match needed st with
  | O => start b
  | S n =>
      if (lower st <=? b) && (b <=? upper st) then
        let c := N.lor (N.shiftl (cp st) 6) (N.land b 0x3F) in
        match n with
        | O => (utf16 c, init)
        | S _ => ([], mk n c 0x80 0xBF)
        end
      else
        let '(out, st') := start b in (replacement :: out, st')
  end.

(** End of input: an unfinished sequence yields one U+FFFD. *)
Definition flush (st : state) : jsstring :=
  match needed st with
  | O => []
  | S _ => [replacement]
  end.

Fixpoint decode (st : state) (bs : list N) : jsstring :=
  match bs with
  | [] => flush st
  | b :: bs' => let '(out, st') := step st b in out ++ decode st' bs'
  end.

(** The decoder states that can arise: the bounds stay inside the
    continuation range, and a pending code point is already large enough
    that the finished one lies outside ASCII. *)
Definition wf (st : state) : Prop :=
  0x80 <= lower st /\ upper st <= 0xBF /\
  match needed st with
  | 0%nat => True
  | 1%nat => 2 <= cp st
  | 2%nat => 1 <= cp st \/ 0xA0 <= lower st
  | _ => 1 <= cp st \/ 0x90 <= lower st
  end.

End Utf8.

(** [data.toString()] *)
Definition toString (data : Buffer) : jsstring :=
  Utf8.decode Utf8.init (map Byte.to_N data).

(** [s.startsWith(p)] and [s.includes(p)]: [p] occurs at some index of [s]. *)
Fixpoint startsWith (s p : jsstring) : bool :=
  match p, s with
  | [], _ => true
  | _ :: _, [] => false
  | c :: p', d :: s' => (c =? d) && startsWith s' p'
  end.

Fixpoint includes (s p : jsstring) : bool :=
  startsWith s p ||
  match s with
  | [] => false
  | _ :: s' => includes s' p
  end.

(** ** Regular expressions

    The fragment of ECMAScript regular expressions that the source uses: a
    backtracking matcher in continuation-passing style, with greedy
    one-or-more repetition of a character class and capture groups. *)
Module Regex.

Definition word (c : N) : bool :=
  ((0x30 <=? c) && (c <=? 0x39)) || ((0x41 <=? c) && (c <=? 0x5A))
  || ((0x61 <=? c) && (c <=? 0x7A)) || (c =? 0x5F).

(** ECMAScript WhiteSpace and LineTerminator code units, the class [\s]. *)
Definition space (c : N) : bool :=
  ((0x09 <=? c) && (c <=? 0x0D)) || (c =? 0x20) || (c =? 0xA0) || (c =? 0x1680)
  || ((0x2000 <=? c) && (c <=? 0x200A)) || (c =? 0x2028) || (c =? 0x2029)
  || (c =? 0x202F) || (c =? 0x205F) || (c =? 0x3000) || (c =? 0xFEFF).

Inductive class := Word | NonSpace.

Definition in_class (k : class) (c : N) : bool :=
  match k with
  | Word => word c
  | NonSpace => negb (space c)
  end.

Inductive t :=
| Bol                     (* ^ without the m flag *)
| Chr (c : N)             (* a literal character *)
| Plus (k : class)        (* \w+ or \S+, greedy *)
| Group (r : t)           (* ( r ) *)
| Seq (r1 r2 : t).

(** A continuation receives the index reached, the rest of the input and
    the captures made so far. *)
Definition cont := nat -> jsstring -> list jsstring -> option (list jsstring).

(** Greedy [k+] at [s]: the longest run is tried first, and each shorter
    one after the continuation has failed on the longer. *)
Fixpoint plus (k : class) (pos : nat) (s : jsstring) (caps : list jsstring)
    (kont : cont) : option (list jsstring) :=
  match s with
  | [] => None
  | c :: s' =>
      if in_class k c then
        match plus k (S pos) s' caps kont with
        | Some r => Some r
        | None => kont (S pos) s' caps
        end
      else None
  end.

Fixpoint run (r : t) (pos : nat) (s : jsstring) (caps : list jsstring)
    (kont : cont) : option (list jsstring) :=
  match r with
  | Bol => if Nat.eqb pos 0 then kont pos s caps else None
  | Chr c =>
      match s with
      | d :: s' => if c =? d then kont (S pos) s' caps else None
      | [] => None
      end
  | Plus k => plus k pos s caps kont
  | Group r' =>
      run r' pos s caps
        (fun pos' s' caps' => kont pos' s' (caps' ++ [take (pos' - pos)%nat s]))
  | Seq r1 r2 =>
      run r1 pos s caps (fun pos' s' caps' => run r2 pos' s' caps' kont)
  end.

(** [str.match(re)] without the g flag: the first start index at which the
    expression matches; the result lists the captures. *)
Fixpoint search (r : t) (pos : nat) (s : jsstring) : option (list jsstring) :=
  match run r pos s [] (fun _ _ caps => Some caps) with
  | Some caps => Some caps
  | None =>
      match s with
      | [] => None
      | _ :: s' => search r (S pos) s'
      end
  end.

Definition exec (r : t) (s : jsstring) : option (list jsstring) := search r 0%nat s.

End Regex.

(** ** [LocalConnectionListener]

    A [Transform] with an [EventEmitter]; [listeners] are the once-listeners
    of its 'local:timeout' event, in registration order. *)
Module LocalConnectionListener.

Section Listener.
Context {Callback : Type}.

Record t := mk { listeners : list Callback }.

(** [constructor()] *)
Definition new : t := mk [].

(** [onTimeout(callback)]: [this.emitter.once('local:timeout', callback)] *)
Definition onTimeout (self : t) (callback : Callback) : t :=
  mk (listeners self ++ [callback]).

(** The outcome of one [_transform(data, encoding, callback)] call:
    whether 'local:timeout' was emitted, the callbacks that the emit
    invoked, the chunk handed to [callback(null, ·)], and the listener
    afterwards (an emit removes the once-listeners it invoked). *)
Record outcome := mkOutcome {
  signalled : bool;
  invoked : list Callback;
  pushed : Buffer;
  after : t
}.

Definition marker : jsstring := lit "408 Request Timeout".

Definition _transform (self : t) (data : Buffer) : outcome :=
  let isTimeout := includes (toString data) marker in
  if isTimeout
  then mkOutcome true (listeners self) data (mk [])
  else mkOutcome false [] data self.

(** The life of one listener: the method calls made on it. *)
Inductive call :=
| OnTimeout (callback : Callback)
| Transform (data : Buffer).

(** All callback invocations, in order, and all output of a sequence of
    calls. *)
Fixpoint calls (self : t) (cs : list call) : list Callback * list Buffer :=
  match cs with
  | [] => ([], [])
  | OnTimeout callback :: rest => calls (onTimeout self callback) rest
  | Transform data :: rest =>
      let o := _transform self data in
      let '(cbs, out) := calls (after o) rest in
      (invoked o ++ cbs, pushed o :: out)
  end.

(** The number of [onTimeout] registrations among the calls. *)
Fixpoint registrations (cs : list call) : nat :=
  match cs with
  | [] => 0
  | OnTimeout _ :: rest => S (registrations rest)
  | Transform _ :: rest => registrations rest
  end.
End Listener.

Arguments t : clear implicits.
Arguments outcome : clear implicits.
Arguments call : clear implicits.

End LocalConnectionListener.

(** ** The cluster: configuration, sockets and the effect log *)

(** [opts] as [TunnelCluster.open] reads them.  A string option is
    [undefined] when [None]. *)
Record Opts := mkOpts {
  remote_ip : option string;
  remote_host : option string;
  remote_port : N;
  local_host : option string;
  local_port : N;
  local_https : bool;
  allow_invalid_cert : bool;
  local_cert : option string;
  local_key : option string;
  local_ca : option string;
  session_connection : bool
}.

(** JavaScript truthiness of a string-or-undefined. *)
Definition truthy (o : option string) : bool :=
  match o with
  | Some s => negb (String.eqb s "")
  | None => false
  end.

(** [a || b] *)
Definition js_or (a b : option string) : option string :=
  if truthy a then a else b.

(** Conversion to a string inside a template literal. *)
Definition show (o : option string) : string := default "undefined"%string o.
Definition show_num (n : N) : string := NilEmpty.string_of_uint (N.to_uint n).

(** What the runtime supplies to the handlers: the file system as
    [fs.readFileSync] sees it ([None]: the read throws), the value
    [Math.random()] returns while local socket [k] is set up, and the
    rounding of a real result to a double. *)
Record Env := mkEnv {
  readFileSync : string -> option Buffer;
  random : nat -> Q;
  fl : Q -> Q
}.

Inductive Exn :=
| ENOENT (path : string)
| ERR_INVALID_ARG_TYPE.

Inductive TlsOpts :=
| RejectUnauthorized_false
| Credentials (cert key : Buffer) (ca : option (list Buffer)).

Inductive ConnOpts :=
| NetConnect (host : string) (port : N)
| TlsConnect (host : string) (port : N) (o : TlsOpts).

(** Events of the [TunnelCluster] emitter. *)
Inductive ClusterEvent :=
| open_ev
| request (method path : jsstring)
| dead
| error (message : string).

(** The calls a handler makes, in the order it makes them.  Local sockets
    are named by their creation index; [remoteClose k] is the closure of
    that name made by the [connLocal] call that created local socket [k]. *)
Inductive Action :=
| Emit (e : ClusterEvent)
| RemoteConnectTo (host : option string) (port : N)
| RemoteSetKeepAlive
| RemoteEnd
| RemotePause
| RemoteResume
| RemoteOnceClose (k : nat)
| RemoteRemoveListenerClose (k : nat)
| LocalNew (k : nat) (c : ConnOpts)
| LocalEnd (k : nat)
| LocalSetTimeout (k : nat) (ms : Q)
| SetTimeout (ms : N)
| PipeThroughHostTransformer (k : nat) (host : string)
| Pipe (k : nat)
| Push (k : nat) (data : Buffer).

(** A local socket and what the source attached to it. *)
Record Local := mkLocal {
  l_conn : ConnOpts;
  l_ended : bool;
  l_timeout : option Q;
  l_onError : bool;
  l_onTimeout : bool;
  l_onConnect : bool;
  l_onClose : bool;
  l_injector : option (LocalConnectionListener.t nat)
}.

(** The variables [open] closes over, the remote socket, and the runtime's
    timers and clock. *)
Record State := mkState {
  connecting : bool;
  destroyed : bool;
  ended : bool;
  paused : bool;
  onConnect : bool;
  onClose : list nat;
  locals : list Local;
  timers : list N;
  now : N;
  log : list Action
}.

Definition set_connecting (v : bool) (s : State) : State :=
  mkState v (destroyed s) (ended s) (paused s) (onConnect s) (onClose s)
          (locals s) (timers s) (now s) (log s).
Definition set_destroyed (v : bool) (s : State) : State :=
  mkState (connecting s) v (ended s) (paused s) (onConnect s) (onClose s)
          (locals s) (timers s) (now s) (log s).
Definition set_ended (v : bool) (s : State) : State :=
  mkState (connecting s) (destroyed s) v (paused s) (onConnect s) (onClose s)
          (locals s) (timers s) (now s) (log s).
Definition set_paused (v : bool) (s : State) : State :=
  mkState (connecting s) (destroyed s) (ended s) v (onConnect s) (onClose s)
          (locals s) (timers s) (now s) (log s).
Definition set_onConnect (v : bool) (s : State) : State :=
  mkState (connecting s) (destroyed s) (ended s) (paused s) v (onClose s)
          (locals s) (timers s) (now s) (log s).
Definition set_onClose (v : list nat) (s : State) : State :=
  mkState (connecting s) (destroyed s) (ended s) (paused s) (onConnect s) v
          (locals s) (timers s) (now s) (log s).
Definition set_locals (v : list Local) (s : State) : State :=
  mkState (connecting s) (destroyed s) (ended s) (paused s) (onConnect s) (onClose s)
          v (timers s) (now s) (log s).
Definition set_timers (v : list N) (s : State) : State :=
  mkState (connecting s) (destroyed s) (ended s) (paused s) (onConnect s) (onClose s)
          (locals s) v (now s) (log s).
Definition set_now (v : N) (s : State) : State :=
  mkState (connecting s) (destroyed s) (ended s) (paused s) (onConnect s) (onClose s)
          (locals s) (timers s) v (log s).
Definition set_log (v : list Action) (s : State) : State :=
  mkState (connecting s) (destroyed s) (ended s) (paused s) (onConnect s) (onClose s)
          (locals s) (timers s) (now s) v.

Definition set_l_ended (v : bool) (l : Local) : Local :=
  mkLocal (l_conn l) v (l_timeout l) (l_onError l) (l_onTimeout l) (l_onConnect l)
          (l_onClose l) (l_injector l).
Definition set_l_timeout (v : option Q) (l : Local) : Local :=
  mkLocal (l_conn l) (l_ended l) v (l_onError l) (l_onTimeout l) (l_onConnect l)
          (l_onClose l) (l_injector l).
Definition set_l_onError (v : bool) (l : Local) : Local :=
  mkLocal (l_conn l) (l_ended l) (l_timeout l) v (l_onTimeout l) (l_onConnect l)
          (l_onClose l) (l_injector l).
Definition set_l_onTimeout (v : bool) (l : Local) : Local :=
  mkLocal (l_conn l) (l_ended l) (l_timeout l) (l_onError l) v (l_onConnect l)
          (l_onClose l) (l_injector l).
Definition set_l_onConnect (v : bool) (l : Local) : Local :=
  mkLocal (l_conn l) (l_ended l) (l_timeout l) (l_onError l) (l_onTimeout l) v
          (l_onClose l) (l_injector l).
Definition set_l_onClose (v : bool) (l : Local) : Local :=
  mkLocal (l_conn l) (l_ended l) (l_timeout l) (l_onError l) (l_onTimeout l)
          (l_onConnect l) v (l_injector l).
Definition set_l_injector (v : option (LocalConnectionListener.t nat)) (l : Local) : Local :=
  mkLocal (l_conn l) (l_ended l) (l_timeout l) (l_onError l) (l_onTimeout l)
          (l_onConnect l) (l_onClose l) v.

(** ** The handler monad: state, and exceptions that keep the state reached *)

Inductive Res (A : Type) :=
| Ok (a : A) (s : State)
| Throw (e : Exn) (s : State).
Arguments Ok {A} a s.
Arguments Throw {A} e s.

Definition M (A : Type) : Type := State -> Res A.

#[global] Instance M_ret : MRet M := fun A a s => Ok a s.
#[global] Instance M_bind : MBind M := fun A B f m s =>
  match m s with
  | Ok a s' => f a s'
  | Throw e s' => Throw e s'
  end.

Definition get : M State := fun s => Ok s s.
Definition modify (f : State -> State) : M unit := fun s => Ok tt (f s).
Definition throw {A} (e : Exn) : M A := fun s => Throw e s.
Definition tell (a : Action) : M unit := modify (fun s => set_log (log s ++ [a]) s).

Definition state_of {A} (r : Res A) : State :=
  match r with
  | Ok _ s => s
  | Throw _ s => s
  end.

Definition threw {A} (r : Res A) : option Exn :=
  match r with
  | Ok _ _ => None
  | Throw e _ => Some e
  end.

(** Code that only computes or throws. *)
Definition E (A : Type) : Type := (Exn + A)%type.

#[global] Instance E_ret : MRet E := fun A a => inr a.
#[global] Instance E_bind : MBind E := fun A B f m =>
  match m with
  | inr a => f a
  | inl e => inl e
  end.

Definition lift {A} (m : E A) : M A :=
  match m with
  | inr a => mret a
  | inl e => throw e
  end.

(** Calls [f] on each element in order. *)
Fixpoint forEach {A} (f : A -> M unit) (l : list A) : M unit :=
  match l with
  | [] => mret tt
  | x :: l' => f x ;; forEach f l'
  end.

(** ** Socket, timer and emitter primitives *)

Definition emit (e : ClusterEvent) : M unit := tell (Emit e).

Definition remote_end : M unit :=
  modify (set_ended true) ;; tell RemoteEnd.
Definition remote_pause : M unit :=
  modify (set_paused true) ;; tell RemotePause.
Definition remote_resume : M unit :=
  modify (set_paused false) ;; tell RemoteResume.

(** [remote.once('close', remoteClose)] for the closure of local socket [k] *)
Definition remote_once_close (k : nat) : M unit :=
  modify (fun s => set_onClose (onClose s ++ [k]) s) ;; tell (RemoteOnceClose k).

(** [emitter.removeListener] removes at most one instance of the listener,
    the most recently added one. *)
Fixpoint remove_first (k : nat) (l : list nat) : list nat :=
  match l with
  | [] => []
  | x :: l' => if Nat.eqb x k then l' else x :: remove_first k l'
  end.
Definition removeListener (k : nat) (l : list nat) : list nat :=
  rev (remove_first k (rev l)).

Definition remote_removeListener_close (k : nat) : M unit :=
  modify (fun s => set_onClose (removeListener k (onClose s)) s) ;;
  tell (RemoteRemoveListenerClose k).

Definition update_local (k : nat) (f : Local -> Local) : M unit :=
  modify (fun s => set_locals (alter f k (locals s)) s).

Definition local_end (k : nat) : M unit :=
  update_local k (set_l_ended true) ;; tell (LocalEnd k).

(** [net.connect] or [tls.connect] to the local server: a new socket, named
    by its index. *)
Definition local_new (c : ConnOpts) : M nat :=
  s ← get;
  let k := length (locals s) in
  modify (set_locals (locals s ++ [mkLocal c false None false false false false None])) ;;
  tell (LocalNew k c) ;;
  mret k.

(** [setTimeout(connLocal, ms)]: due [ms] after the current time. *)
Definition setTimeout_connLocal (ms : N) : M unit :=
  modify (fun s => set_timers (timers s ++ [now s + ms]) s) ;; tell (SetTimeout ms).

(** ** [TunnelCluster.open] and the handlers it installs *)

Section Cluster.
Context (env : Env) (opt : Opts).

Definition remoteHostOrIp : option string := js_or (remote_ip opt) (remote_host opt).
Definition remotePort : N := remote_port opt.
Definition localHost : string := show (js_or (local_host opt) (Some "localhost"%string)).
Definition localPort : N := local_port opt.
Definition allowInvalidCert : bool := allow_invalid_cert opt.
Definition sessionConnection : bool := session_connection opt.

(** [fs.readFileSync(path)] *)
Definition readFile (path : option string) : E Buffer :=
  match path with
  | None => inl ERR_INVALID_ARG_TYPE
  | Some p =>
      match readFileSync env p with
      | Some b => inr b
      | None => inl (ENOENT p)
      end
  end.

Definition getLocalCertOpts : E TlsOpts :=
  if allowInvalidCert then mret RejectUnauthorized_false
  else
    cert ← readFile (local_cert opt);
    key ← readFile (local_key opt);
    ca ← (if truthy (local_ca opt)
          then b ← readFile (local_ca opt); mret (Some [b])
          else mret None);
    mret (Credentials cert key ca).

(** The argument of the call that creates the local socket:
    [tls.connect({ host, port, ...getLocalCertOpts() })] or
    [net.connect({ host, port })]. *)
Definition localConnection : E ConnOpts :=
  if local_https opt
  then o ← getLocalCertOpts; mret (TlsConnect localHost localPort o)
  else mret (NetConnect localHost localPort).

(** [remoteClose], the closure made with local socket [k] *)
Definition remoteClose (k : nat) : M unit :=
  emit dead ;;
  local_end k.

(** The message of the error that the remote 'error' handler emits. *)
Definition refused_message : string :=
  ("connection refused: " ++ show remoteHostOrIp ++ ":" ++ show_num remotePort
   ++ " (check your firewall settings)")%string.

(** [remote.on('error', err => ...)] *)
Definition on_remote_error (code : string) : M unit :=
  (if String.eqb code "ECONNREFUSED"
   then emit (error refused_message)
   else mret tt) ;;
  remote_end.

(** The body shared by the local 'timeout' handler and by the callback given
    to [timeoutInjector.onTimeout]. *)
Definition teardown_unless_connecting (k : nat) : M unit :=
  s ← get;
  if connecting s then mret tt
  else
    remote_removeListener_close k ;;
    remote_end ;;
    remoteClose k.

(** [local.once('error', err => ...)] of local socket [k] *)
Definition on_local_error (k : nat) (code : string) : M unit :=
  local_end k ;;
  remote_removeListener_close k ;;
  if negb (String.eqb code "ECONNREFUSED") && negb (String.eqb code "ECONNRESET")
  then remote_end
  else setTimeout_connLocal 1000.

(** [Math.random() * (80_000 - 30_000) + 30_000] in double arithmetic: each
    operation rounds its exact result. *)
Definition actualTimeoutValue (r : Q) : Q :=
  fl env (fl env (r * fl env (80000 - 30000)) + 30000)%Q.

Definition connLocal : M unit :=
  s ← get;
  if destroyed s then emit dead
  else
    remote_pause ;;
    c ← lift localConnection;
    k ← local_new c;
    remote_once_close k ;;
    update_local k (set_l_onError true) ;;
    (if sessionConnection
     then
       let v := actualTimeoutValue (random env k) in
       update_local k (set_l_timeout (Some v)) ;;
       tell (LocalSetTimeout k v) ;;
       update_local k (set_l_onTimeout true)
     else mret tt) ;;
    update_local k (set_l_onConnect true).

(** [local.once('connect', () => ...)] of local socket [k] *)
Definition on_local_connect (k : nat) : M unit :=
  remote_resume ;;
  (if truthy (local_host opt)
   then tell (PipeThroughHostTransformer k (show (local_host opt)))
   else mret tt) ;;
  let timeoutInjector :=
    LocalConnectionListener.onTimeout LocalConnectionListener.new k in
  update_local k (set_l_injector (Some timeoutInjector)) ;;
  tell (Pipe k) ;;
  update_local k (set_l_onClose true).

(** [remote.on('data', data => ...)]; the expression is [/^(\w+) (\S+)/]. *)
Definition request_re : Regex.t :=
  Regex.Seq Regex.Bol
    (Regex.Seq (Regex.Group (Regex.Plus Regex.Word))
       (Regex.Seq (Regex.Chr 0x20) (Regex.Group (Regex.Plus Regex.NonSpace)))).

Definition on_remote_data (data : Buffer) : M unit :=
  modify (set_connecting true) ;;
  match Regex.exec request_re (toString data) with
  | Some [m1; m2] => emit (request m1 m2)
  | _ => mret tt
  end.

(** [remote.once('connect', () => ...)] *)
Definition on_remote_connect : M unit :=
  emit open_ev ;;
  connLocal.

(** The state [open()] leaves behind: the remote socket is connecting and
    its 'error', 'data' and once-'connect' handlers are installed. *)
Definition opened : State :=
  mkState false false false false true [] [] [] 0
          [RemoteConnectTo remoteHostOrIp remotePort; RemoteSetKeepAlive].

(** [open()] as a computation: it calls nothing that can throw. *)
Definition open : M unit := fun _ => Ok tt opened.

(** ** The event loop

    What the runtime delivers to the handlers.  A once-listener runs only
    while it is installed and is removed before it runs.  A socket is
    destroyed before its 'error' or 'close' event is emitted.  A timer runs
    [connLocal] only once its delay has elapsed. *)
Inductive Event :=
| RemoteConnect
| RemoteData (data : Buffer)
| RemoteError (code : string)
| RemoteClose
| LocalConnect (k : nat)
| LocalData (k : nat) (data : Buffer)
| LocalError (k : nat) (code : string)
| LocalTimeout (k : nat)
| LocalClose (k : nat) (hadError : bool)
| TimerFire (i : nat)
| Elapse (ms : N).

(** Runs [h] if the once-listener read by [armed] is installed on local
    socket [k], after removing it with [disarm]. *)
Definition once_local (k : nat) (armed : Local -> bool) (disarm : Local -> Local)
    (h : M unit) : M unit :=
  s ← get;
  match locals s !! k with
  | Some l => if armed l then update_local k disarm ;; h else mret tt
  | None => mret tt
  end.

(** A chunk written by local socket [k] goes through its [timeoutInjector]
    on the way to the remote socket. *)
Definition local_data (k : nat) (data : Buffer) : M unit :=
  s ← get;
  match locals s !! k with
  | Some l =>
      match l_injector l with
      | Some inj =>
          let o := LocalConnectionListener._transform inj data in
          update_local k (set_l_injector (Some (LocalConnectionListener.after o))) ;;
          forEach teardown_unless_connecting (LocalConnectionListener.invoked o) ;;
          tell (Push k (LocalConnectionListener.pushed o))
      | None => mret tt
      end
  | None => mret tt
  end.

Definition dispatch (ev : Event) : M unit :=
  match ev with
  | RemoteConnect =>
      s ← get;
      if onConnect s then modify (set_onConnect false) ;; on_remote_connect
      else mret tt
  | RemoteData data => on_remote_data data
  | RemoteError code => modify (set_destroyed true) ;; on_remote_error code
  | RemoteClose =>
      s ← get;
      modify (set_destroyed true) ;;
      modify (set_onClose []) ;;
      forEach remoteClose (onClose s)
  | LocalConnect k =>
      once_local k l_onConnect (set_l_onConnect false) (on_local_connect k)
  | LocalData k data => local_data k data
  | LocalError k code =>
      once_local k l_onError (set_l_onError false) (on_local_error k code)
  | LocalTimeout k =>
      once_local k l_onTimeout (set_l_onTimeout false) (teardown_unless_connecting k)
  | LocalClose k hadError =>
      once_local k l_onClose (set_l_onClose false) (mret tt)
  | TimerFire i =>
      s ← get;
      match timers s !! i with
      | Some due =>
          if due <=? now s
          then modify (set_timers (delete i (timers s))) ;; connLocal
          else mret tt
      | None => mret tt
      end
  | Elapse ms => modify (fun s => set_now (now s + ms) s)
  end.

(** A run of the loop; an exception that no handler catches ends it. *)
Fixpoint run (evs : list Event) : M unit :=
  match evs with
  | [] => mret tt
  | ev :: evs' => dispatch ev ;; run evs'
  end.

End Cluster.

(** ** Vocabulary of the properties *)

(** [m] occurs in [l] as a contiguous run. *)
Definition infix {A} (m l : list A) : Prop := exists p q, l = p ++ m ++ q.

Definition ascii_units (m : jsstring) : Prop := Forall (fun u => u < 0x80) m.
Definition ascii_bytes (m : Buffer) : Prop := Forall (fun b => Byte.to_N b < 0x80) m.

(** The longest prefix of [s] in the class [f], and what is behind it. *)
Fixpoint leading (f : N -> bool) (s : jsstring) : jsstring :=
  match s with
  | c :: s' => if f c then c :: leading f s' else []
  | [] => []
  end.

Fixpoint behind (f : N -> bool) (s : jsstring) : jsstring :=
  match s with
  | c :: s' => if f c then behind f s' else s
  | [] => []
  end.

Definition nonspace (u : N) : bool := negb (Regex.space u).

(** What [/^(\w+) (\S+)/] captures, computed directly. *)
Definition request_of (s : jsstring) : option (list jsstring) :=
  let w := leading Regex.word s in
  match w, behind Regex.word s with
  | _ :: _, c :: rest =>
      if c =? 0x20 then
        let p := leading nonspace rest in
        match p with
        | _ :: _ => Some [w; p]
        | [] => None
        end
      else None
  | _, _ => None
  end.

(** [r] is empty or starts outside the class [f]. *)
Definition stops (f : N -> bool) (r : jsstring) : Prop :=
  r = [] \/ exists c r', r = c :: r' /\ f c = false.

(** [s] starts with a word token, one space and a non-space token. *)
Definition starts_with_request (s : jsstring) : Prop :=
  exists w p rest,
    s = w ++ 0x20 :: p ++ rest /\
    w <> [] /\ Forall (fun c => Regex.word c = true) w /\
    p <> [] /\ Forall (fun c => nonspace c = true) p.

(** [s] starts with the word token [w], one space and the non-space token
    [p], and [p] ends where the non-space characters end. *)
Definition request_line (s w p : jsstring) : Prop :=
  exists rest,
    s = w ++ 0x20 :: p ++ rest /\
    w <> [] /\ Forall (fun c => Regex.word c = true) w /\
    p <> [] /\ Forall (fun c => nonspace c = true) p /\
    stops nonspace rest.

(** The events of the cluster among the logged calls. *)
Fixpoint emitted (l : list Action) : list ClusterEvent :=
  match l with
  | [] => []
  | Emit e :: l' => e :: emitted l'
  | _ :: l' => emitted l'
  end.

(** The local sockets created among the logged calls. *)
Fixpoint created (l : list Action) : list nat :=
  match l with
  | [] => []
  | LocalNew k _ :: l' => k :: created l'
  | _ :: l' => created l'
  end.

(** [h] run from [s] returns, having made exactly the calls [acts]. *)
Definition performs (h : M unit) (s : State) (acts : list Action) : Prop :=
  exists s', h s = Ok tt s' /\ log s' = log s ++ acts.

(** The error codes after which the local connection is retried. *)
Definition transient (code : string) : Prop :=
  code = "ECONNREFUSED"%string \/ code = "ECONNRESET"%string.

(** [needle] occurs in [hay]. *)
Definition occurs_in (needle hay : string) : Prop :=
  exists pre post, hay = (pre ++ needle ++ post)%string.

(** Local socket [k] exists, with a listener for the event read by [armed]. *)
Definition listens (s : State) (k : nat) (armed : Local -> bool) : Prop :=
  exists l, locals s !! k = Some l /\ armed l = true.

(** The [timeoutInjector] of local socket [k] is in place with its callback
    still registered. *)
Definition injector_armed (s : State) (k : nat) : Prop :=
  exists l, locals s !! k = Some l /\
            l_injector l = Some (LocalConnectionListener.mk [k]).

(** The delays of the [connLocal] timers set among the logged calls. *)
Fixpoint scheduled (l : list Action) : list N :=
  match l with
  | [] => []
  | SetTimeout ms :: l' => ms :: scheduled l'
  | _ :: l' => scheduled l'
  end.

(** One round of the retry loop: local socket [k] fails with [code], the
    back-off elapses, and the timer fires. *)
Definition retry_round (k : nat) (code : string) : list Event :=
  [LocalError k code; Elapse 1000; TimerFire 0].

(** Successive rounds, one per code, starting with local socket [k]. *)
Fixpoint retries (k : nat) (codes : list string) : list Event :=
  match codes with
  | [] => []
  | code :: codes' => retry_round k code ++ retries (S k) codes'
  end.

(** [fs.readFileSync(path)] throws. *)
Definition unreadable (env : Env) (path : option string) : Prop :=
  exists e, readFile env path = inl e.

(** The last local socket still has its 'error' listener, no timer is
    pending, and the remote is alive. *)
Definition awaiting (n : nat) (s : State) : Prop :=
  destroyed s = false /\ length (locals s) = S n /\
  listens s n l_onError /\ timers s = [].

(** Rounding to the nearest double is monotone and leaves the integers of
    the timeout computation unchanged. *)
Definition rounding_ok (env : Env) : Prop :=
  (forall x y : Q, x <= y -> fl env x <= fl env y)%Q /\
  (fl env 0 == 0)%Q /\ (fl env 30000 == 30000)%Q /\
  (fl env 50000 == 50000)%Q /\ (fl env 80000 == 80000)%Q.

(** ** Sample configurations *)

Definition sample_env : Env :=
  mkEnv (fun _ => None) (fun _ => 1 # 2) (fun x => x).

Definition sample_opts : Opts :=
  mkOpts None (Some "tunnel.example"%string) 4242 None 8080 false false
         None None None true.

Definition sample_opts_https : Opts :=
  mkOpts None (Some "tunnel.example"%string) 4242 None 8443 true false
         (Some "cert.pem"%string) (Some "key.pem"%string) None false.

(** The session once the remote and the first local socket have connected,
    and the same after a request has arrived from the remote. *)
Definition paired : State :=
  Eval vm_compute in
  state_of (run sample_env sample_opts [RemoteConnect; LocalConnect 0] (opened sample_opts)).

Definition paired_busy : State :=
  Eval vm_compute in
  state_of (run sample_env sample_opts
              [RemoteConnect; LocalConnect 0; RemoteData (bytes "GET / HTTP/1.1")]
              (opened sample_opts)).

(** The session whose first local attempt was refused and whose remote has
    closed while the retry was pending; the back-off has elapsed. *)
Definition stranded : State :=
  Eval vm_compute in
  state_of (run sample_env sample_opts
              [RemoteConnect; LocalError 0 "ECONNREFUSED"; RemoteClose; Elapse 1000]
              (opened sample_opts)).

(** The local socket as [connLocal] leaves it. *)
Definition fresh_local (env : Env) (opt : Opts) (c : ConnOpts) (k : nat) : Local :=
  if session_connection opt
  then mkLocal c false (Some (actualTimeoutValue env (random env k))) true true true false None
  else mkLocal c false None true false true false None.

(** [P] is kept by [m], whether it returns or throws. *)
Definition pres (P : State -> Prop) {A} (m : M A) : Prop :=
  forall s, P s -> P (state_of (m s)).

(** * Proofs *)

(** ** The decoder *)

Module Utf8Facts.
Import Utf8.

Lemma mod_sub b k m : m <> 0 -> k * m <= b < (k + 1) * m -> b mod m = b - k * m.
Proof.
  intros Hm H. symmetry. apply (N.mod_unique b m k); lia.
Qed.

Lemma land_mask b n : N.land b (N.ones n) = b mod 2 ^ n.
Proof. apply N.land_ones. Qed.

Lemma lor_shiftl_low c x : x < 64 -> N.lor (N.shiftl c 6) x = c * 64 + x.
Proof.
  intros Hx.
  assert (Hd : N.land (N.shiftl c 6) x = 0).
  { apply N.bits_inj. intros n. rewrite N.land_spec, N.bits_0.
    destruct (N.lt_ge_cases n 6) as [Hn|Hn].
    - rewrite N.shiftl_spec_low by exact Hn. reflexivity.
    - replace x with (x mod 2 ^ 6) by (apply N.mod_small; exact Hx).
      rewrite N.mod_pow2_bits_high by exact Hn. apply andb_false_r. }
  rewrite <- N.lxor_lor by exact Hd.
  rewrite <- N.add_nocarry_lxor by exact Hd.
  rewrite N.shiftl_mul_pow2. reflexivity.
Qed.

Lemma cont_bits b : 0x80 <= b <= 0xBF -> N.land b 0x3F = b - 0x80.
Proof.
  intros H. change 0x3F with (N.ones 6). rewrite land_mask.
  change (2 ^ 6) with 64. rewrite (mod_sub b 2 64); lia.
Qed.

Lemma wf_init : wf init.
Proof. unfold wf, init; simpl. lia. Qed.

Lemma utf16_high c : 0x80 <= c -> Forall (fun u => 0x80 <= u) (utf16 c).
Proof.
  intros Hc. unfold utf16. destruct (N.ltb_spec c 0x10000).
  - repeat constructor. exact Hc.
  - repeat constructor; lia.
Qed.

Lemma utf16_nonempty c : utf16 c <> [].
Proof. unfold utf16. destruct (c <? 0x10000); discriminate. Qed.

Lemma start_ascii b : b < 0x80 -> start b = ([b], init).
Proof.
  intros H. unfold start. destruct (N.leb_spec b 0x7F); [reflexivity | lia].
Qed.

Ltac cases_leb :=
  repeat match goal with
  | |- context [N.leb ?a ?b] => destruct (N.leb_spec a b)
  | |- context [N.eqb ?a ?b] => destruct (N.eqb_spec a b)
  end.

Lemma lead_bits b k n : k * 2 ^ n <= b < (k + 1) * 2 ^ n -> N.land b (N.ones n) = b - k * 2 ^ n.
Proof.
  intros H. rewrite land_mask. apply mod_sub; [|exact H].
  apply N.pow_nonzero. discriminate.
Qed.

Lemma start_high b :
  0x80 <= b ->
  Forall (fun u => 0x80 <= u) (fst (start b)) /\ wf (snd (start b)) /\
  (fst (start b) = [] -> needed (snd (start b)) <> 0%nat).
Proof.
  intros H. unfold start. cases_leb; simpl; try lia;
    (split; [repeat constructor; unfold replacement; lia|]);
    (split; [|try discriminate; intros _; simpl; lia]);
    try apply wf_init; unfold wf; simpl;
    (split; [lia|]); (split; [lia|]); try (right; lia).
  - change 0x1F with (N.ones 5). rewrite (lead_bits b 6 5); simpl; lia.
  - left. change 0xF with (N.ones 4). rewrite (lead_bits b 14 4); simpl; lia.
  - left. change 0xF with (N.ones 4). rewrite (lead_bits b 14 4); simpl; lia.
  - left. change 0x7 with (N.ones 3). rewrite (lead_bits b 30 3); simpl; lia.
  - left. change 0x7 with (N.ones 3). rewrite (lead_bits b 30 3); simpl; lia.
Qed.

Lemma step_ascii st b : wf st -> b < 0x80 -> step st b = (flush st ++ [b], init).
Proof.
  intros (Hl & _ & _) Hb. unfold step, flush.
  destruct (needed st) as [|n].
  - apply start_ascii. exact Hb.
  - destruct (N.leb_spec (lower st) b); [lia|]. simpl.
    rewrite start_ascii by exact Hb. reflexivity.
Qed.

Lemma step_high st b :
  wf st -> 0x80 <= b ->
  Forall (fun u => 0x80 <= u) (fst (step st b)) /\ wf (snd (step st b)) /\
  (fst (step st b) = [] -> needed (snd (step st b)) <> 0%nat).
Proof.
  intros (Hl & Hu & Hc) Hb. unfold step.
  destruct (needed st) as [|n] eqn:En.
  - apply start_high. exact Hb.
  - destruct (N.leb_spec (lower st) b), (N.leb_spec b (upper st)); simpl.
    + assert (Hlow : N.land b 0x3F = b - 0x80) by (apply cont_bits; lia).
      rewrite lor_shiftl_low by (rewrite Hlow; lia). rewrite Hlow.
      destruct n as [|[|n]]; simpl.
      * split; [apply utf16_high; lia|]. split; [apply wf_init|].
        intros E. destruct (utf16_nonempty _ E).
      * split; [constructor|]. split; [|discriminate].
        unfold wf; simpl. split; [lia|]. split; [lia|]. lia.
      * split; [constructor|]. split; [|discriminate].
        unfold wf; simpl. split; [lia|]. split; [lia|].
        destruct n; lia.
    + destruct (start b) as [o st'] eqn:Es.
      pose proof (start_high b Hb) as (H1 & H2 & _). rewrite Es in H1, H2. simpl in *.
      split; [constructor; [unfold replacement; lia | exact H1]|].
      split; [exact H2 | discriminate].
    + destruct (start b) as [o st'] eqn:Es.
      pose proof (start_high b Hb) as (H1 & H2 & _). rewrite Es in H1, H2. simpl in *.
      split; [constructor; [unfold replacement; lia | exact H1]|].
      split; [exact H2 | discriminate].
    + destruct (start b) as [o st'] eqn:Es.
      pose proof (start_high b Hb) as (H1 & H2 & _). rewrite Es in H1, H2. simpl in *.
      split; [constructor; [unfold replacement; lia | exact H1]|].
      split; [exact H2 | discriminate].
Qed.

Lemma wf_step st b : wf st -> wf (snd (step st b)).
Proof.
  intros Hw. destruct (N.lt_ge_cases b 0x80) as [Hb|Hb].
  - rewrite step_ascii by assumption. apply wf_init.
  - apply step_high; assumption.
Qed.

Lemma decode_cons st b bs :
  decode st (b :: bs) = fst (step st b) ++ decode (snd (step st b)) bs.
Proof. simpl. destruct (step st b). reflexivity. Qed.

(** A pending sequence always ends in a code unit outside ASCII. *)
Lemma decode_pending_head st bs :
  wf st -> needed st <> 0%nat ->
  exists c r, decode st bs = c :: r /\ 0x80 <= c.
Proof.
  revert st. induction bs as [|b bs IH]; intros st Hw Hn.
  - simpl. unfold flush. destruct (needed st); [congruence|].
    exists replacement, []. split; [reflexivity | unfold replacement; lia].
  - rewrite decode_cons. destruct (N.lt_ge_cases b 0x80) as [Hb|Hb].
    + rewrite step_ascii by assumption. simpl. unfold flush.
      destruct (needed st); [congruence|]. simpl.
      eexists _, _. split; [reflexivity | unfold replacement; lia].
    + destruct (step_high st b Hw Hb) as (H1 & H2 & H3).
      destruct (fst (step st b)) as [|c o].
      * simpl. apply IH; [exact H2 | apply H3; reflexivity].
      * simpl. eexists _, _. split; [reflexivity|]. inversion H1; assumption.
Qed.


Lemma decode_init_ascii m bs :
  ascii_units m -> decode init (m ++ bs) = m ++ decode init bs.
Proof.
  induction 1 as [|c m Hc _ IH]; [reflexivity|].
  rewrite <- app_comm_cons, decode_cons, step_ascii by (exact Hc || apply wf_init).
  simpl. rewrite IH. reflexivity.
Qed.

Lemma decode_app_ascii st pre c bs :
  wf st -> c < 0x80 ->
  decode st (pre ++ c :: bs) = decode st pre ++ c :: decode init bs.
Proof.
  revert st. induction pre as [|b pre IH]; intros st Hw Hc.
  - rewrite app_nil_l, decode_cons, step_ascii by assumption. simpl.
    rewrite <- app_assoc. reflexivity.
  - rewrite <- app_comm_cons.
    rewrite (decode_cons st b pre), (decode_cons st b (pre ++ c :: bs)).
    rewrite IH by (apply wf_step, Hw || exact Hc).
    rewrite app_assoc. reflexivity.
Qed.

(** Text decoded from input that contains an ASCII run contains the run. *)
Lemma decode_infix_intro pre m post :
  ascii_units m -> m <> [] ->
  decode init (pre ++ m ++ post) = decode init pre ++ m ++ decode init post.
Proof.
  intros Hm Hne. destruct Hm as [|c m Hc Hm]; [congruence|].
  rewrite <- app_comm_cons, decode_app_ascii by (apply wf_init || exact Hc).
  rewrite decode_init_ascii by exact Hm. reflexivity.
Qed.

(** An ASCII prefix of the decoded text is a prefix of the input. *)
Lemma decode_prefix_elim m : forall bs q,
  ascii_units m -> decode init bs = m ++ q -> exists q', bs = m ++ q'.
Proof.
  induction m as [|c m IH]; intros bs q Hm E; [exists bs; reflexivity|].
  inversion Hm as [|? ? Hc Hm']; subst.
  destruct bs as [|b bs]; [discriminate|].
  rewrite decode_cons in E.
  destruct (N.lt_ge_cases b 0x80) as [Hb|Hb].
  - rewrite step_ascii in E by (apply wf_init || exact Hb). simpl in E.
    injection E as -> E. destruct (IH bs q Hm' E) as [q' ->]. exists q'. reflexivity.
  - exfalso. destruct (step_high init b wf_init Hb) as (H1 & H2 & H3).
    destruct (fst (step init b)) as [|u o].
    + destruct (decode_pending_head (snd (step init b)) bs H2 (H3 eq_refl))
        as (u & r & Eu & Hu).
      simpl in E. rewrite Eu in E. injection E as -> _. lia.
    + simpl in E. injection E as -> _. inversion H1; lia.
Qed.

Lemma skip_high o l p m q :
  Forall (fun u => 0x80 <= u) o -> ascii_units m -> m <> [] ->
  o ++ l = p ++ m ++ q -> exists p', l = p' ++ m ++ q.
Proof.
  intros Ho Hm Hne. revert p. induction Ho as [|u o Hu _ IH]; intros p E.
  - exists p. exact E.
  - destruct p as [|v p].
    + destruct Hm as [|c m Hc _]; [congruence|].
      simpl in E. injection E as -> _. lia.
    + simpl in E. injection E as _ E. exact (IH p E).
Qed.

(** An ASCII run in the decoded text is a run of the input. *)
Lemma decode_infix_elim m : forall bs st p q,
  wf st -> ascii_units m -> m <> [] ->
  decode st bs = p ++ m ++ q -> exists p' q', bs = p' ++ m ++ q'.
Proof.
  intros bs. induction bs as [|b bs IH]; intros st p q Hw Hm Hne E.
  - exfalso. simpl in E.
    assert (Hf : Forall (fun u => 0x80 <= u) (flush st)).
    { unfold flush. destruct (needed st); repeat constructor. unfold replacement. lia. }
    rewrite <- (app_nil_r (flush st)) in E.
    destruct (skip_high _ _ _ _ _ Hf Hm Hne E) as [p' E'].
    destruct p'; [destruct m; [congruence | discriminate] | discriminate].
  - rewrite decode_cons in E. destruct (N.lt_ge_cases b 0x80) as [Hb|Hb].
    + rewrite step_ascii in E by assumption. simpl in E. rewrite <- app_assoc in E.
      assert (Hf : Forall (fun u => 0x80 <= u) (flush st)).
      { unfold flush. destruct (needed st); repeat constructor. unfold replacement. lia. }
      destruct (skip_high _ _ _ _ _ Hf Hm Hne E) as [p' E']. simpl in E'.
      destruct p' as [|v p'].
      * destruct m as [|c m]; [congruence|]. simpl in E'. injection E' as <- E'.
        inversion Hm; subst.
        destruct (decode_prefix_elim m bs q) as [q' ->]; [assumption | exact E' |].
        exists [], q'. reflexivity.
      * simpl in E'. injection E' as _ E'.
        destruct (IH init p' q wf_init Hm Hne E') as (p'' & q' & ->).
        exists (b :: p''), q'. reflexivity.
    + destruct (step_high st b Hw Hb) as (H1 & H2 & _).
      destruct (skip_high _ _ _ _ _ H1 Hm Hne E) as [p' E'].
      destruct (IH _ p' q H2 Hm Hne E') as (p'' & q' & ->).
      exists (b :: p''), q'. reflexivity.
Qed.

End Utf8Facts.

Lemma startsWith_spec s p : startsWith s p = true <-> exists q, s = p ++ q.
Proof.
  revert s. induction p as [|c p IH]; intros s; simpl.
  - destruct s; split; eauto.
  - destruct s as [|d s]; [split; [discriminate | intros [q E]; discriminate]|].
    simpl. rewrite andb_true_iff, N.eqb_eq, IH. split.
    + intros [-> [q ->]]. exists q. reflexivity.
    + intros [q E]. injection E as -> ->. eauto.
Qed.

Lemma includes_nil p : includes [] p = startsWith [] p.
Proof. simpl. apply orb_false_r. Qed.

Lemma includes_cons d s p : includes (d :: s) p = startsWith (d :: s) p || includes s p.
Proof. reflexivity. Qed.

Lemma includes_spec s p : includes s p = true <-> infix p s.
Proof.
  unfold infix. induction s as [|d s IH].
  - rewrite includes_nil, startsWith_spec. split.
    + intros [q E]. exists [], q. exact E.
    + intros (a & q & E). destruct a; [exists q; exact E | discriminate].
  - rewrite includes_cons, orb_true_iff, startsWith_spec, IH. split.
    + intros [[q E] | (a & q & E)].
      * exists [], q. exact E.
      * exists (d :: a), q. simpl. rewrite E. reflexivity.
    + intros (a & q & E). destruct a as [|x a].
      * left. exists q. exact E.
      * right. simpl in E. injection E as _ E. exists a, q. exact E.
Qed.

Lemma to_N_inj : forall x y : byte, Byte.to_N x = Byte.to_N y -> x = y.
Proof.
  intros x y E. pose proof (Byte.of_to_N x) as Hx. rewrite E, Byte.of_to_N in Hx.
  congruence.
Qed.

(** [buf.toString().includes(m)] for a non-empty ASCII [m] is a search for
    the bytes of [m] in [buf]. *)
Lemma includes_toString data (m : Buffer) :
  ascii_bytes m -> m <> [] ->
  includes (toString data) (map Byte.to_N m) = true <-> infix m data.
Proof.
  intros Hm Hne.
  assert (Hu : ascii_units (map Byte.to_N m)).
  { unfold ascii_units. rewrite Forall_map. exact Hm. }
  assert (Hne' : map Byte.to_N m <> []) by (destruct m; [congruence | discriminate]).
  rewrite includes_spec. unfold toString. split.
  - intros (p & q & E).
    destruct (Utf8Facts.decode_infix_elim _ _ _ _ _ Utf8Facts.wf_init Hu Hne' E)
      as (p' & q' & E').
    apply fmap_app_inv in E' as (l1 & l23 & -> & E2 & ->).
    symmetry in E2. apply fmap_app_inv in E2 as (l2 & l3 & E3 & -> & ->).
    exists l1, l3. f_equal. f_equal.
    symmetry. revert E3. clear. revert l2.
    induction m as [|b m IH]; intros [|c l2] E; try discriminate; [reflexivity|].
    simpl in E. injection E as E1 E2. f_equal; [apply to_N_inj, E1 | apply IH, E2].
  - intros (p & q & ->). rewrite !map_app.
    rewrite Utf8Facts.decode_infix_intro by assumption. eexists _, _. reflexivity.
Qed.

Lemma marker_ascii : ascii_bytes (bytes "408 Request Timeout").
Proof. unfold ascii_bytes. repeat constructor. Qed.

Lemma toString_ascii_prefix (m tail : Buffer) :
  ascii_bytes m -> toString (m ++ tail) = map Byte.to_N m ++ toString tail.
Proof.
  intros Hm. unfold toString. rewrite map_app.
  apply Utf8Facts.decode_init_ascii. unfold ascii_units. rewrite Forall_map. exact Hm.
Qed.

(** ** The regular expression of the data handler *)

Module RegexFacts.
Import Regex.

Lemma leading_behind f s : leading f s ++ behind f s = s.
Proof.
  induction s as [|c s IH]; [reflexivity|]. simpl.
  destruct (f c); [simpl; rewrite IH|]; reflexivity.
Qed.

Lemma leading_all f s : Forall (fun c => f c = true) (leading f s).
Proof.
  induction s as [|c s IH]; simpl; [constructor|].
  destruct (f c) eqn:E; constructor; assumption.
Qed.

Lemma behind_stops f s : behind f s = [] \/ exists c r, behind f s = c :: r /\ f c = false.
Proof.
  induction s as [|c s IH]; simpl; [left; reflexivity|].
  destruct (f c) eqn:E; [exact IH|]. right. eauto.
Qed.

Lemma leading_nil_behind f s : leading f s = [] -> behind f s = s.
Proof. destruct s as [|c s]; simpl; [reflexivity|]. destruct (f c); [discriminate | reflexivity]. Qed.

Lemma leading_app f w r :
  Forall (fun c => f c = true) w ->
  (r = [] \/ exists c r', r = c :: r' /\ f c = false) ->
  leading f (w ++ r) = w /\ behind f (w ++ r) = r.
Proof.
  intros Hw Hr. induction Hw as [|c w Hc _ IH]; simpl.
  - destruct Hr as [-> | (c & r' & -> & E)]; simpl; [|rewrite E]; split; reflexivity.
  - rewrite Hc. destruct IH as [-> ->]. split; reflexivity.
Qed.

(** [k+] followed by something that cannot start with a character of [k]:
    only the longest run can succeed. *)
Lemma plus_longest k kont caps :
  (forall pos c s, in_class k c = true -> kont pos (c :: s) caps = None) ->
  forall s pos,
    plus k pos s caps kont =
    match leading (in_class k) s with
    | [] => None
    | w => kont (pos + length w)%nat (behind (in_class k) s) caps
    end.
Proof.
  intros Hk. induction s as [|c s IH]; intros pos; simpl; [reflexivity|].
  destruct (in_class k c) eqn:Ec; [|reflexivity].
  rewrite IH. replace (pos + S (length (leading (in_class k) s)))%nat
    with (S pos + length (leading (in_class k) s))%nat by lia.
  destruct (leading (in_class k) s) as [|d w] eqn:El.
  - rewrite (leading_nil_behind _ _ El). simpl. rewrite Nat.add_0_r. reflexivity.
  - destruct (kont _ _ caps) eqn:Ek; [reflexivity|].
    destruct s as [|e s]; [discriminate|]. simpl in El.
    destruct (in_class k e) eqn:Ee; [|discriminate]. apply Hk. exact Ee.
Qed.

(** [k+] followed by something that always succeeds takes the longest run. *)
Lemma plus_greedy k kont caps :
  (forall pos s, kont pos s caps <> None) ->
  forall s pos,
    plus k pos s caps kont =
    match leading (in_class k) s with
    | [] => None
    | w => kont (pos + length w)%nat (behind (in_class k) s) caps
    end.
Proof.
  intros Hk. induction s as [|c s IH]; intros pos; simpl; [reflexivity|].
  destruct (in_class k c) eqn:Ec; [|reflexivity].
  rewrite IH. replace (pos + S (length (leading (in_class k) s)))%nat
    with (S pos + length (leading (in_class k) s))%nat by lia.
  destruct (leading (in_class k) s) as [|d w] eqn:El.
  - rewrite (leading_nil_behind _ _ El). simpl. rewrite Nat.add_0_r. reflexivity.
  - destruct (kont _ _ caps) eqn:Ek; [reflexivity|]. destruct (Hk _ _ Ek).
Qed.

Lemma search_after_start s : forall pos, (0 < pos)%nat -> search request_re pos s = None.
Proof.
  induction s as [|c s IH]; intros pos Hp; simpl;
    destruct pos; try lia; simpl; [reflexivity|]. apply IH. lia.
Qed.

Lemma take_leading f s : take (length (leading f s)) s = leading f s.
Proof.
  rewrite <- (leading_behind f s) at 2. apply take_app_length.
Qed.

Lemma run_request_re s :
  run request_re 0 s [] (fun _ _ caps => Some caps) = request_of s.
Proof.
  unfold request_of, request_re. cbv zeta. cbn [run Nat.eqb]. rewrite plus_longest.
  - change (in_class Word) with word.
    pose proof (take_leading word s) as Ht.
    destruct (leading word s) as [|c w] eqn:El; [reflexivity|].
    destruct (behind word s) as [|d rest] eqn:Eb; [reflexivity|].
    rewrite (N.eqb_sym 0x20 d). destruct (N.eqb_spec d 0x20) as [->|Hd]; [|reflexivity].
    rewrite plus_greedy by discriminate.
    change (in_class NonSpace) with nonspace.
    pose proof (take_leading nonspace rest) as Hp.
    destruct (leading nonspace rest) as [|e p] eqn:Ep; [reflexivity|].
    rewrite Nat.add_0_l, Nat.sub_0_r, Ht.
    replace (S (length (c :: w)) + length (e :: p) - S (length (c :: w)))%nat
      with (length (e :: p)) by lia.
    rewrite Hp. reflexivity.
  - intros pos c r Hc. cbn [in_class] in Hc.
    destruct (N.eqb_spec 0x20 c) as [<-|]; [discriminate | reflexivity].
Qed.

Lemma exec_request_re s : exec request_re s = request_of s.
Proof.
  unfold exec. destruct s as [|c s]; cbn [search]; rewrite run_request_re.
  - destruct (request_of []); reflexivity.
  - rewrite search_after_start by lia. destruct (request_of (c :: s)); reflexivity.
Qed.

Lemma leading_prefix f w r :
  Forall (fun c => f c = true) w -> exists w', leading f (w ++ r) = w ++ w'.
Proof.
  induction 1 as [|c w Hc _ [w' IH]]; simpl; [eexists; reflexivity|].
  rewrite Hc, IH. eexists; reflexivity.
Qed.

Lemma request_of_some s w p : request_of s = Some [w; p] <-> request_line s w p.
Proof.
  unfold request_of, request_line. cbv zeta. split.
  - pose proof (leading_behind word s) as Hs.
    pose proof (leading_all word s) as Hw.
    destruct (leading word s) as [|c0 w0] eqn:El; [discriminate|].
    destruct (behind word s) as [|d rest] eqn:Eb; [discriminate|].
    destruct (N.eqb_spec d 0x20) as [->|]; [|discriminate].
    pose proof (leading_behind nonspace rest) as Hr.
    pose proof (leading_all nonspace rest) as Hp.
    pose proof (behind_stops nonspace rest) as Hstop.
    destruct (leading nonspace rest) as [|e0 p0] eqn:Ep; [discriminate|].
    intros [= <- <-]. exists (behind nonspace rest).
    rewrite Hr. split; [symmetry; exact Hs|].
    repeat split; try discriminate; assumption.
  - intros (rest & -> & Hw0 & Hw & Hp0 & Hp & Hstop).
    destruct (leading_app word w (0x20 :: p ++ rest) Hw) as [-> ->];
      [right; exists 0x20; eauto|].
    destruct w as [|c0 w]; [congruence|]. rewrite N.eqb_refl.
    destruct (leading_app nonspace p rest Hp Hstop) as [-> _].
    destruct p; [congruence | reflexivity].
Qed.

Lemma request_of_shape s caps :
  request_of s = Some caps -> exists w p, caps = [w; p].
Proof.
  unfold request_of. cbv zeta.
  destruct (leading word s); [discriminate|].
  destruct (behind word s); [discriminate|].
  destruct (_ =? _); [|discriminate].
  destruct (leading nonspace _); [discriminate|].
  intros [= <-]. eauto.
Qed.

Lemma request_of_none s : request_of s = None <-> ~ starts_with_request s.
Proof.
  split.
  - intros E (w & p & rest & -> & Hw0 & Hw & Hp0 & Hp). revert E.
    unfold request_of. cbv zeta.
    destruct (leading_app word w (0x20 :: p ++ rest) Hw) as [-> ->];
      [right; exists 0x20; eauto|].
    destruct w as [|c0 w]; [congruence|]. rewrite N.eqb_refl.
    destruct (leading_prefix nonspace p rest Hp) as [w' ->].
    destruct p; [congruence | discriminate].
  - intros Hn. destruct (request_of s) as [caps|] eqn:E; [|reflexivity].
    exfalso. apply Hn.
    destruct (request_of_shape _ _ E) as (w & p & ->).
    apply request_of_some in E as (rest & E & H1 & H2 & H3 & H4 & _).
    exists w, p, rest. auto.
Qed.

End RegexFacts.

(** ** Evaluating the handlers *)

Lemma snoc2 {A} (l : list A) a b r : l ++ a :: b :: r = (l ++ [a]) ++ b :: r.
Proof. rewrite <- app_assoc. reflexivity. Qed.

Lemma bind_get {A} (f : State -> M A) s : (get ≫= f) s = f s s.
Proof. reflexivity. Qed.

Lemma bind_ok {A B} (m : M A) (f : A -> M B) s a s' :
  m s = Ok a s' -> (m ≫= f) s = f a s'.
Proof. intros H. unfold mbind, M_bind. rewrite H. reflexivity. Qed.

Lemma bind_throw {A B} (m : M A) (f : A -> M B) s e s' :
  m s = Throw e s' -> (m ≫= f) s = Throw e s'.
Proof. intros H. unfold mbind, M_bind. rewrite H. reflexivity. Qed.

Lemma alter_last {A} (f : A -> A) (l : list A) (x : A) :
  alter f (length l) (l ++ [x]) = l ++ [f x].
Proof.
  induction l as [|y l IH]; [reflexivity|]. simpl. f_equal. exact IH.
Qed.

Lemma removeListener_single k : removeListener k [k] = [].
Proof. unfold removeListener. simpl. rewrite Nat.eqb_refl. reflexivity. Qed.

(** ** Properties kept by every handler *)

Section Pres.
Context (P : State -> Prop).

Lemma pres_ret {A} (a : A) : pres P (mret a).
Proof. intros s Hs. exact Hs. Qed.

Lemma pres_get : pres P get.
Proof. intros s Hs. exact Hs. Qed.

Lemma pres_throw {A} e : pres P (@throw A e).
Proof. intros s Hs. exact Hs. Qed.

Lemma pres_lift {A} (m : E A) : pres P (lift m).
Proof. destruct m; [apply pres_throw | apply pres_ret]. Qed.

Lemma pres_modify f : (forall s, P s -> P (f s)) -> pres P (modify f).
Proof. intros H s Hs. apply H, Hs. Qed.

Lemma pres_bind {A B} (m : M A) (f : A -> M B) :
  pres P m -> (forall a, pres P (f a)) -> pres P (m ≫= f).
Proof.
  intros Hm Hf s Hs. specialize (Hm s Hs). unfold mbind, M_bind.
  destruct (m s) as [a s'|e s']; simpl in *; [apply Hf, Hm | exact Hm].
Qed.

Lemma pres_forEach {A} (f : A -> M unit) l :
  (forall x, pres P (f x)) -> pres P (forEach f l).
Proof.
  intros Hf. induction l as [|x l IH]; simpl; [apply pres_ret|].
  apply pres_bind; [apply Hf | intros _; exact IH].
Qed.
End Pres.

Ltac pres_step :=
  lazymatch goal with
  | |- pres _ (mbind _ _) => apply pres_bind; [|intros ?]
  | |- pres _ (mret _) => apply pres_ret
  | |- pres _ get => apply pres_get
  | |- pres _ (lift _) => apply pres_lift
  | |- pres _ (forEach _ _) => apply pres_forEach; intros ?
  | |- pres _ (modify _) => apply pres_modify; intros ? ?
  | |- pres _ (if ?b then _ else _) => destruct b
  | |- pres _ (match ?x with _ => _ end) => destruct x
  end.

Ltac unfold_handlers :=
  unfold dispatch, on_remote_connect, on_remote_data, on_remote_error,
    teardown_unless_connecting, once_local, local_data, on_local_connect,
    on_local_error, remoteClose, emit, remote_end, remote_pause, remote_resume,
    remote_once_close, remote_removeListener_close, update_local, local_end,
    setTimeout_connLocal, tell.

Section Handlers.
Context (env : Env) (opt : Opts).

Lemma teardown_idle k s :
  connecting s = false ->
  teardown_unless_connecting k s =
  Ok tt (set_log (log s ++ [RemoteRemoveListenerClose k; RemoteEnd; Emit dead; LocalEnd k])
           (set_locals (alter (set_l_ended true) k (locals s))
              (set_ended true (set_onClose (removeListener k (onClose s)) s)))).
Proof.
  intros Hc. rewrite !snoc2. unfold teardown_unless_connecting.
  rewrite bind_get, Hc. reflexivity.
Qed.

Lemma teardown_connecting k s :
  connecting s = true -> teardown_unless_connecting k s = Ok tt s.
Proof.
  intros Hc. unfold teardown_unless_connecting. rewrite bind_get, Hc. reflexivity.
Qed.

Lemma once_local_armed k armed disarm h s l :
  locals s !! k = Some l -> armed l = true ->
  once_local k armed disarm h s = h (set_locals (alter disarm k (locals s)) s).
Proof.
  intros Hl Ha. unfold once_local. rewrite bind_get, Hl, Ha. reflexivity.
Qed.

Lemma once_local_idle k armed disarm h s :
  (forall l, locals s !! k = Some l -> armed l = false) ->
  once_local k armed disarm h s = Ok tt s.
Proof.
  intros H. unfold once_local. rewrite bind_get.
  destruct (locals s !! k) as [l|] eqn:E; [|reflexivity].
  rewrite (H l eq_refl). reflexivity.
Qed.

Lemma fatal_code code :
  ~ transient code ->
  negb (String.eqb code "ECONNREFUSED") && negb (String.eqb code "ECONNRESET") = true.
Proof.
  intros Hc.
  destruct (String.eqb_spec code "ECONNREFUSED") as [->|_];
    [destruct Hc; left; reflexivity|].
  destruct (String.eqb_spec code "ECONNRESET") as [->|_];
    [destruct Hc; right; reflexivity|].
  reflexivity.
Qed.

Lemma transient_code code :
  transient code ->
  negb (String.eqb code "ECONNREFUSED") && negb (String.eqb code "ECONNRESET") = false.
Proof. intros [-> | ->]; reflexivity. Qed.

Lemma on_local_error_fatal k code s :
  ~ transient code ->
  on_local_error k code s =
  Ok tt (set_log (log s ++ [LocalEnd k; RemoteRemoveListenerClose k; RemoteEnd])
           (set_ended true
              (set_onClose (removeListener k (onClose s))
                 (set_locals (alter (set_l_ended true) k (locals s)) s)))).
Proof.
  intros Hc. rewrite !snoc2. unfold on_local_error.
  rewrite (fatal_code code Hc). reflexivity.
Qed.

Lemma on_local_error_transient k code s :
  transient code ->
  on_local_error k code s =
  Ok tt (set_log (log s ++ [LocalEnd k; RemoteRemoveListenerClose k; SetTimeout 1000])
           (set_timers (timers s ++ [now s + 1000])
              (set_onClose (removeListener k (onClose s))
                 (set_locals (alter (set_l_ended true) k (locals s)) s)))).
Proof.
  intros Hc. rewrite !snoc2. unfold on_local_error.
  rewrite (transient_code code Hc). reflexivity.
Qed.

Lemma connLocal_destroyed s :
  destroyed s = true ->
  connLocal env opt s = Ok tt (set_log (log s ++ [Emit dead]) s).
Proof.
  intros Hd. unfold connLocal. rewrite bind_get, Hd. reflexivity.
Qed.

Lemma fresh_local_built c l :
  alter (set_l_onConnect true) (length l)
    (if session_connection opt
     then alter (set_l_onTimeout true) (length l)
            (alter (set_l_timeout
                      (Some (actualTimeoutValue env (random env (length l)))))
               (length l)
               (alter (set_l_onError true) (length l)
                  (l ++ [mkLocal c false None false false false false None])))
     else alter (set_l_onError true) (length l)
            (l ++ [mkLocal c false None false false false false None]))
  = l ++ [fresh_local env opt c (length l)].
Proof.
  unfold fresh_local. destruct (session_connection opt);
    rewrite !alter_last; reflexivity.
Qed.

(** The calls of a [connLocal] that finds the remote alive. *)
Lemma connLocal_alive s c :
  destroyed s = false -> localConnection env opt = inr c ->
  connLocal env opt s =
  Ok tt (set_log
           (log s ++ [RemotePause; LocalNew (length (locals s)) c;
                      RemoteOnceClose (length (locals s))]
              ++ (if session_connection opt
                  then [LocalSetTimeout (length (locals s))
                          (actualTimeoutValue env (random env (length (locals s))))]
                  else []))
           (set_locals (locals s ++ [fresh_local env opt c (length (locals s))])
              (set_onClose (onClose s ++ [length (locals s)])
                 (set_paused true s)))).
Proof.
  intros Hd Hc. rewrite <- fresh_local_built. unfold connLocal.
  rewrite bind_get, Hd, Hc. unfold sessionConnection.
  destruct (session_connection opt); cbn [app]; rewrite ?app_nil_r, !snoc2; reflexivity.
Qed.

Lemma connLocal_throws s e :
  destroyed s = false -> localConnection env opt = inl e ->
  connLocal env opt s =
  Throw e (set_log (log s ++ [RemotePause]) (set_paused true s)).
Proof.
  intros Hd Hc. unfold connLocal. rewrite bind_get, Hd, Hc. reflexivity.
Qed.

(** *** [connecting] *)
Lemma pres_connLocal_connecting :
  pres (fun s => connecting s = true) (connLocal env opt).
Proof.
  unfold connLocal, local_new.
  repeat first [pres_step | progress unfold_handlers]; assumption.
Qed.

Lemma pres_dispatch_connecting ev :
  pres (fun s => connecting s = true) (dispatch env opt ev).
Proof.
  destruct ev; unfold_handlers;
    repeat first [apply pres_connLocal_connecting | pres_step | progress unfold_handlers];
    solve [assumption | reflexivity].
Qed.

Lemma run_app evs1 evs2 s :
  run env opt (evs1 ++ evs2) s =
  match run env opt evs1 s with
  | Ok _ s' => run env opt evs2 s'
  | Throw e s' => Throw e s'
  end.
Proof.
  revert s. induction evs1 as [|ev evs1 IH]; intros s; [reflexivity|].
  simpl. unfold mbind, M_bind. destruct (dispatch env opt ev s); [apply IH | reflexivity].
Qed.

Lemma pres_run P evs :
  (forall ev, pres P (dispatch env opt ev)) -> pres P (run env opt evs).
Proof.
  intros H. induction evs as [|ev evs IH]; simpl; [apply pres_ret|].
  apply pres_bind; [apply H | intros _; exact IH].
Qed.


(** *** The two teardown paths *)

Lemma dispatch_timeout_idle k s :
  connecting s = false -> listens s k l_onTimeout ->
  exists s',
    dispatch env opt (LocalTimeout k) s = Ok tt s' /\
    log s' = log s ++ [RemoteRemoveListenerClose k; RemoteEnd; Emit dead; LocalEnd k] /\
    onClose s' = removeListener k (onClose s) /\
    destroyed s' = destroyed s.
Proof.
  intros Hc (l & Hl & Ha). cbn [dispatch].
  rewrite (once_local_armed _ _ _ _ _ _ Hl Ha), teardown_idle by exact Hc.
  eexists. split; [reflexivity|]. split; [reflexivity|]. split; reflexivity.
Qed.

Lemma dispatch_timeout_connecting k s :
  connecting s = true ->
  exists s',
    dispatch env opt (LocalTimeout k) s = Ok tt s' /\
    log s' = log s /\ ended s' = ended s /\ onClose s' = onClose s.
Proof.
  intros Hc. cbn [dispatch]. unfold once_local. rewrite bind_get.
  destruct (locals s !! k) as [l|]; [|exists s; auto].
  destruct (l_onTimeout l); [|exists s; auto].
  rewrite bind_ok with (a := tt) (s' := set_locals (alter (set_l_onTimeout false) k (locals s)) s)
    by reflexivity.
  rewrite teardown_connecting by exact Hc.
  eexists. split; [reflexivity|]. split; [reflexivity|]. split; reflexivity.
Qed.

Lemma local_data_eval k data s l inj :
  locals s !! k = Some l -> l_injector l = Some inj ->
  local_data k data s =
  let o := LocalConnectionListener._transform inj data in
  match forEach teardown_unless_connecting (LocalConnectionListener.invoked o)
          (set_locals (alter (set_l_injector (Some (LocalConnectionListener.after o))) k
                         (locals s)) s) with
  | Ok _ s' => Ok tt (set_log (log s' ++ [Push k data]) s')
  | Throw e s' => Throw e s'
  end.
Proof.
  intros Hl Hi. unfold local_data. rewrite bind_get, Hl, Hi. cbv zeta.
  unfold LocalConnectionListener._transform.
  destruct (includes _ _); reflexivity.
Qed.

Lemma dispatch_close_eval s :
  dispatch env opt RemoteClose s =
  forEach remoteClose (onClose s) (set_onClose [] (set_destroyed true s)).
Proof. reflexivity. Qed.

Lemma dispatch_close_no_listener s :
  onClose s = [] ->
  dispatch env opt RemoteClose s = Ok tt (set_onClose [] (set_destroyed true s)).
Proof. intros H. rewrite dispatch_close_eval, H. reflexivity. Qed.

Lemma dispatch_close_one_listener s k :
  onClose s = [k] ->
  performs (dispatch env opt RemoteClose) s [Emit dead; LocalEnd k].
Proof.
  intros H. unfold performs. rewrite dispatch_close_eval, H.
  eexists. split; [reflexivity|]. rewrite snoc2. reflexivity.
Qed.

Lemma dispatch_data_408 k data s :
  connecting s = false -> injector_armed s k ->
  infix (bytes "408 Request Timeout") data ->
  exists s',
    dispatch env opt (LocalData k data) s = Ok tt s' /\
    log s' = log s ++ [RemoteRemoveListenerClose k; RemoteEnd; Emit dead;
                       LocalEnd k; Push k data] /\
    onClose s' = removeListener k (onClose s) /\
    destroyed s' = destroyed s.
Proof.
  intros Hc (l & Hl & Hi) Hm. cbn [dispatch].
  rewrite (local_data_eval k data s l _ Hl Hi). cbv zeta.
  unfold LocalConnectionListener._transform.
  replace (includes (toString data) LocalConnectionListener.marker) with true.
  2:{ symmetry. apply (includes_toString data (bytes "408 Request Timeout"));
        [apply marker_ascii | discriminate | exact Hm]. }
  cbn [LocalConnectionListener.invoked LocalConnectionListener.after
       LocalConnectionListener.listeners forEach].
  set (s1 := set_locals _ s).
  rewrite (bind_ok _ _ _ _ _ (teardown_idle k s1 Hc)).
  eexists. split; [reflexivity|]. split; [|split; reflexivity].
  rewrite !snoc2. reflexivity.
Qed.

Lemma dispatch_data_connecting k data s :
  connecting s = true ->
  exists s',
    dispatch env opt (LocalData k data) s = Ok tt s' /\
    (log s' = log s \/ log s' = log s ++ [Push k data]) /\
    ended s' = ended s /\ onClose s' = onClose s.
Proof.
  intros Hc. cbn [dispatch].
  destruct (locals s !! k) as [l|] eqn:Hl.
  2:{ exists s. unfold local_data. rewrite bind_get, Hl. auto. }
  destruct (l_injector l) as [inj|] eqn:Hi.
  2:{ exists s. unfold local_data. rewrite bind_get, Hl, Hi. auto. }
  rewrite (local_data_eval k data s l inj Hl Hi). cbv zeta.
  set (s1 := set_locals _ s).
  assert (H : forall ks, forEach teardown_unless_connecting ks s1 = Ok tt s1).
  { induction ks as [|k' ks IH]; [reflexivity|]. cbn [forEach].
    rewrite (bind_ok _ _ _ _ _ (teardown_connecting k' s1 Hc)). exact IH. }
  rewrite H. eexists. split; [reflexivity|]. split; [right; reflexivity|].
  split; reflexivity.
Qed.

Lemma on_remote_data_eval data s :
  dispatch env opt (RemoteData data) s =
  Ok tt (set_log (log s ++ match request_of (toString data) with
                           | Some [m1; m2] => [Emit (request m1 m2)]
                           | _ => []
                           end) (set_connecting true s)).
Proof.
  cbn [dispatch]. unfold on_remote_data.
  rewrite (bind_ok _ _ _ _ _ (eq_refl : modify (set_connecting true) s = Ok tt _)).
  rewrite RegexFacts.exec_request_re.
  destruct (request_of (toString data)) as [[|m1 [|m2 [|m3 caps]]]|];
    rewrite ?app_nil_r; try reflexivity;
    destruct s; reflexivity.
Qed.

(** *** Timers *)

Lemma dispatch_timer_early i due s :
  timers s !! i = Some due -> now s < due ->
  dispatch env opt (TimerFire i) s = Ok tt s.
Proof.
  intros Ht Hd. cbn [dispatch]. rewrite bind_get, Ht.
  destruct (N.leb_spec due (now s)); [lia | reflexivity].
Qed.

Lemma dispatch_timer_due i due s :
  timers s !! i = Some due -> due <= now s ->
  dispatch env opt (TimerFire i) s =
  connLocal env opt (set_timers (delete i (timers s)) s).
Proof.
  intros Ht Hd. cbn [dispatch]. rewrite bind_get, Ht.
  destruct (N.leb_spec due (now s)); [reflexivity | lia].
Qed.

Lemma dispatch_local_error_transient k code s :
  listens s k l_onError -> transient code ->
  dispatch env opt (LocalError k code) s =
  Ok tt (set_log (log s ++ [LocalEnd k; RemoteRemoveListenerClose k; SetTimeout 1000])
           (set_timers (timers s ++ [now s + 1000])
              (set_onClose (removeListener k (onClose s))
                 (set_locals (alter (set_l_ended true) k
                                (alter (set_l_onError false) k (locals s))) s)))).
Proof.
  intros (l & Hl & Ha) Hc. cbn [dispatch].
  rewrite (once_local_armed _ _ _ _ _ _ Hl Ha), on_local_error_transient by exact Hc.
  reflexivity.
Qed.

Lemma dispatch_local_error_fatal k code s :
  listens s k l_onError -> ~ transient code ->
  dispatch env opt (LocalError k code) s =
  Ok tt (set_log (log s ++ [LocalEnd k; RemoteRemoveListenerClose k; RemoteEnd])
           (set_ended true
              (set_onClose (removeListener k (onClose s))
                 (set_locals (alter (set_l_ended true) k
                                (alter (set_l_onError false) k (locals s))) s)))).
Proof.
  intros (l & Hl & Ha) Hc. cbn [dispatch].
  rewrite (once_local_armed _ _ _ _ _ _ Hl Ha), on_local_error_fatal by exact Hc.
  reflexivity.
Qed.

Lemma emitted_app l1 l2 : emitted (l1 ++ l2) = emitted l1 ++ emitted l2.
Proof.
  induction l1 as [|a l1 IH]; [reflexivity|]. destruct a; simpl; rewrite IH; reflexivity.
Qed.

Lemma created_app l1 l2 : created (l1 ++ l2) = created l1 ++ created l2.
Proof.
  induction l1 as [|a l1 IH]; [reflexivity|]. destruct a; simpl; rewrite IH; reflexivity.
Qed.

Lemma scheduled_app l1 l2 : scheduled (l1 ++ l2) = scheduled l1 ++ scheduled l2.
Proof.
  induction l1 as [|a l1 IH]; [reflexivity|]. destruct a; simpl; rewrite IH; reflexivity.
Qed.

End Handlers.

(** * Properties of the program *)

(** ** The timeout sentinel *)

(** C7.  For every chunk that [_transform] processes, the chunk handed on is
    the input chunk itself, and 'local:timeout' is emitted exactly when the
    bytes of "408 Request Timeout" occur somewhere in the chunk, which is
    exactly when the decoded text of the chunk includes that string. *)
Theorem C7_transform_passes_bytes_and_signals_on_marker
    {Callback : Type} (self : LocalConnectionListener.t Callback) (data : Buffer) :
  let o := LocalConnectionListener._transform self data in
  LocalConnectionListener.pushed o = data /\
  (LocalConnectionListener.signalled o = true <->
   infix (bytes "408 Request Timeout") data) /\
  (LocalConnectionListener.signalled o = true <->
   infix (lit "408 Request Timeout") (toString data)).
Proof.
  cbv zeta. unfold LocalConnectionListener._transform.
  assert (Hb : includes (toString data) LocalConnectionListener.marker = true <->
               infix (bytes "408 Request Timeout") data).
  { apply (includes_toString data (bytes "408 Request Timeout"));
      [apply marker_ascii | discriminate]. }
  assert (Ht : includes (toString data) LocalConnectionListener.marker = true <->
               infix (lit "408 Request Timeout") (toString data)).
  { apply includes_spec. }
  destruct (includes (toString data) LocalConnectionListener.marker);
    cbn [LocalConnectionListener.pushed LocalConnectionListener.signalled];
    (split; [reflexivity|]); split.
  - exact Hb.
  - exact Ht.
  - split; [discriminate|]. intros H. apply Hb in H. discriminate.
  - split; [discriminate|]. intros H. apply Ht in H. discriminate.
Qed.

Section ListenerFacts.
Context {Callback : Type}.
Import LocalConnectionListener.

Lemma calls_transform (self : t Callback) data rest :
  fst (calls self (Transform data :: rest)) =
  invoked (_transform self data) ++ fst (calls (after (_transform self data)) rest).
Proof. cbn [calls]. destruct (calls _ rest). reflexivity. Qed.

Lemma calls_bound (cs : list (call Callback)) : forall self,
  (length (fst (calls self cs)) <= length (listeners self) + registrations cs)%nat.
Proof.
  induction cs as [|[cb|data] cs IH]; intros self.
  - simpl. lia.
  - cbn [calls registrations]. specialize (IH (onTimeout self cb)).
    unfold onTimeout in IH at 2. cbn [listeners] in IH.
    rewrite length_app in IH. simpl in IH. lia.
  - rewrite calls_transform, length_app. cbn [registrations].
    specialize (IH (after (_transform self data))). unfold _transform in *.
    destruct (includes _ _); cbn [invoked after listeners] in *; simpl in *; lia.
Qed.

Lemma calls_disarmed (chunks : list Buffer) :
  fst (calls (mk (Callback := Callback) []) (map Transform chunks)) = [].
Proof.
  induction chunks as [|data chunks IH]; [reflexivity|].
  cbn [map]. rewrite calls_transform. unfold _transform.
  destruct (includes _ _); cbn [after invoked listeners app]; exact IH.
Qed.

Lemma calls_single (cb : Callback) (chunks : list Buffer) :
  fst (calls (mk [cb]) (map Transform chunks)) =
  if existsb (fun d => includes (toString d) marker) chunks then [cb] else [].
Proof.
  induction chunks as [|data chunks IH]; [reflexivity|].
  cbn [map existsb]. rewrite calls_transform. unfold _transform.
  destruct (includes (toString data) marker); cbn [after invoked listeners orb app].
  - rewrite calls_disarmed. reflexivity.
  - exact IH.
Qed.

(** C8.  A callback registered with [onTimeout] on a fresh listener, as
    [open] does, is invoked once if some chunk carries the marker and never
    otherwise, however many chunks carry it; over any sequence of calls
    there are at most as many invocations as registrations; and once the
    signal has fired the listener has no callback left, so later chunks
    invoke nothing. *)
Theorem C8_timeout_callback_at_most_once :
  (forall (cb : Callback) (chunks : list Buffer),
     fst (calls new (OnTimeout cb :: map Transform chunks)) =
     if existsb (fun d => includes (toString d) marker) chunks then [cb] else []) /\
  (forall (self : t Callback) (cs : list (call Callback)),
     (length (fst (calls self cs)) <= length (listeners self) + registrations cs)%nat) /\
  (forall (self : t Callback) (data : Buffer) (chunks : list Buffer),
     let o := _transform self data in
     signalled o = true ->
     listeners (after o) = [] /\
     fst (calls (after o) (map Transform chunks)) = []).
Proof.
  split; [|split].
  - intros cb chunks. apply calls_single.
  - intros self cs. apply calls_bound.
  - intros self data chunks. cbv zeta. unfold _transform.
    destruct (includes _ _); cbn [signalled after listeners]; [|discriminate].
    intros _. split; [reflexivity | apply calls_disarmed].
Qed.

End ListenerFacts.

(** A marker in the third and in the fifth chunk: one invocation. *)
Lemma C8_timeout_callback_at_most_once_witness :
  let o := LocalConnectionListener._transform
             (LocalConnectionListener.mk [7%nat]) (bytes "HTTP/1.1 408 Request Timeout") in
  LocalConnectionListener.signalled o = true /\
  LocalConnectionListener.listeners (LocalConnectionListener.after o) = [] /\
  fst (LocalConnectionListener.calls (LocalConnectionListener.after o)
         (map LocalConnectionListener.Transform [bytes "408 Request Timeout"])) = [].
Proof.
  cbv zeta. split; [reflexivity|].
  apply (proj2 (proj2 C8_timeout_callback_at_most_once)). reflexivity.
Defined.

(** ** The remote 'data' handler *)

(** C10.  Whatever the chunk, the remote 'data' handler emits [request]
    with the two captures when the text of the chunk starts with a word
    token, one space and a non-space token (the second capture running to
    the end of the non-space characters), and emits nothing when the text
    does not start that way; every text that starts that way has such a
    pair of tokens.  A chunk that starts with "GET /foo " followed by
    anything yields method "GET" and path "/foo". *)
Theorem C10_request_event_from_leading_tokens env opt (data : Buffer) (s : State) :
  (forall w p, request_line (toString data) w p ->
     performs (dispatch env opt (RemoteData data)) s [Emit (request w p)]) /\
  (~ starts_with_request (toString data) <->
     performs (dispatch env opt (RemoteData data)) s []) /\
  (starts_with_request (toString data) <->
     exists w p, request_line (toString data) w p) /\
  (forall tail, data = bytes "GET /foo " ++ tail ->
     performs (dispatch env opt (RemoteData data)) s
       [Emit (request (lit "GET") (lit "/foo"))]).
Proof.
  assert (Hsome : forall w p, request_line (toString data) w p ->
     performs (dispatch env opt (RemoteData data)) s [Emit (request w p)]).
  { intros w p H. apply RegexFacts.request_of_some in H.
    eexists. rewrite on_remote_data_eval, H. split; reflexivity. }
  assert (Hex : starts_with_request (toString data) <->
     exists w p, request_line (toString data) w p).
  { split.
    - intros H. destruct (request_of (toString data)) as [caps|] eqn:E.
      + destruct (RegexFacts.request_of_shape _ _ E) as (w & p & ->).
        exists w, p. apply RegexFacts.request_of_some. exact E.
      + apply RegexFacts.request_of_none in E. contradiction.
    - intros (w & p & rest & E & H1 & H2 & H3 & H4 & _). exists w, p, rest. auto. }
  split; [exact Hsome|]. split; [|split; [exact Hex|]].
  - split.
    + intros H. apply RegexFacts.request_of_none in H.
      eexists. rewrite on_remote_data_eval, H. split; reflexivity.
    + intros (s' & E & Hlog) H. apply Hex in H as (w & p & H).
      destruct (Hsome w p H) as (s'' & E' & Hlog').
      rewrite E in E'. injection E' as <-. rewrite Hlog in Hlog'.
      apply app_inv_head in Hlog'. discriminate.
  - intros tail ->. apply Hsome.
    rewrite (toString_ascii_prefix (bytes "GET /foo ") tail)
      by (unfold ascii_bytes; repeat constructor).
    exists (0x20 :: toString tail). split; [reflexivity|].
    split; [discriminate|]. split; [repeat constructor|].
    split; [discriminate|]. split; [repeat constructor|].
    right. eexists _, _. split; reflexivity.
Qed.

(** The request line of an HTTP request, and a chunk of binary data. *)
Lemma C10_request_event_from_leading_tokens_witness :
  performs (dispatch sample_env sample_opts
              (RemoteData (bytes "GET /foo HTTP/1.1"))) (opened sample_opts)
    [Emit (request (lit "GET") (lit "/foo"))] /\
  performs (dispatch sample_env sample_opts
              (RemoteData (bytes "POST /a?b=1"))) (opened sample_opts)
    [Emit (request (lit "POST") (lit "/a?b=1"))].
Proof.
  split.
  - apply (proj2 (proj2 (proj2 (C10_request_event_from_leading_tokens
             sample_env sample_opts (bytes "GET /foo HTTP/1.1") (opened sample_opts))))
             (bytes "HTTP/1.1")).
    reflexivity.
  - apply (proj1 (C10_request_event_from_leading_tokens
             sample_env sample_opts (bytes "POST /a?b=1") (opened sample_opts))).
    exists []. split; [reflexivity|].
    split; [discriminate|]. split; [repeat constructor|].
    split; [discriminate|]. split; [repeat constructor|].
    left. reflexivity.
Defined.

(** ** Teardown on the idle timer and on the embedded 408 *)

Section Teardown.
Context (env : Env) (opt : Opts).

(** C3.  While [connecting] is false, the local 'timeout' handler and the
    callback of the timeout injector (run when a chunk from the local
    socket carries "408 Request Timeout") make exactly these calls, in this
    order: the remote's close listener of the pairing is removed, the
    remote is ended, [dead] is emitted, and the local socket is ended (the
    408 chunk is handed on afterwards).  [dead] is emitted once: when that
    listener was the one installed, the 'close' of the remote that follows
    emits nothing.  While [connecting] is true, both do nothing. *)
Theorem C3_teardown_sequence (s : State) (k : nat) :
  (connecting s = false ->
     (listens s k l_onTimeout ->
        performs (dispatch env opt (LocalTimeout k)) s
          [RemoteRemoveListenerClose k; RemoteEnd; Emit dead; LocalEnd k] /\
        (onClose s = [k] ->
           performs (run env opt [LocalTimeout k; RemoteClose]) s
             [RemoteRemoveListenerClose k; RemoteEnd; Emit dead; LocalEnd k])) /\
     (forall data,
        injector_armed s k -> infix (bytes "408 Request Timeout") data ->
        performs (dispatch env opt (LocalData k data)) s
          [RemoteRemoveListenerClose k; RemoteEnd; Emit dead; LocalEnd k;
           Push k data] /\
        (onClose s = [k] ->
           performs (run env opt [LocalData k data; RemoteClose]) s
             [RemoteRemoveListenerClose k; RemoteEnd; Emit dead; LocalEnd k;
              Push k data]))) /\
  (connecting s = true ->
     performs (dispatch env opt (LocalTimeout k)) s [] /\
     (forall data,
        injector_armed s k ->
        performs (dispatch env opt (LocalData k data)) s [Push k data])).
Proof.
  split.
  - intros Hc. split.
    + intros Hl. destruct (dispatch_timeout_idle env opt k s Hc Hl)
        as (s' & E & Hlog & Hclose & _).
      split; [exists s'; auto|]. intros Hk.
      rewrite Hk, removeListener_single in Hclose.
      unfold performs. cbn [run]. unfold mbind, M_bind. rewrite E.
      rewrite (dispatch_close_no_listener env opt s' Hclose).
      eexists. split; [reflexivity|]. cbn. exact Hlog.
    + intros data Hi Hm. destruct (dispatch_data_408 env opt k data s Hc Hi Hm)
        as (s' & E & Hlog & Hclose & _).
      split; [exists s'; auto|]. intros Hk.
      rewrite Hk, removeListener_single in Hclose.
      unfold performs. cbn [run]. unfold mbind, M_bind. rewrite E.
      rewrite (dispatch_close_no_listener env opt s' Hclose).
      eexists. split; [reflexivity|]. cbn. exact Hlog.
  - intros Hc. split.
    + destruct (dispatch_timeout_connecting env opt k s Hc) as (s' & E & Hlog & _).
      exists s'. rewrite app_nil_r. auto.
    + intros data (l & Hl & Hi). unfold performs. cbn [dispatch].
      rewrite (local_data_eval k data s l _ Hl Hi). cbv zeta.
      unfold LocalConnectionListener._transform.
      destruct (includes _ _);
        cbn [LocalConnectionListener.invoked LocalConnectionListener.after
             LocalConnectionListener.listeners forEach];
        unfold mbind, M_bind; rewrite ?teardown_connecting by exact Hc;
        eexists; (split; [reflexivity|]); reflexivity.
Qed.

End Teardown.

(** The first pairing is torn down by its idle timer and, alternatively, by
    a 408 from the local server; after a request has arrived, the timer is
    ignored. *)
Lemma C3_teardown_sequence_witness :
  performs (run sample_env sample_opts [LocalTimeout 0; RemoteClose]) paired
    [RemoteRemoveListenerClose 0; RemoteEnd; Emit dead; LocalEnd 0] /\
  performs (run sample_env sample_opts
              [LocalData 0 (bytes "HTTP/1.1 408 Request Timeout"); RemoteClose]) paired
    [RemoteRemoveListenerClose 0; RemoteEnd; Emit dead; LocalEnd 0;
     Push 0 (bytes "HTTP/1.1 408 Request Timeout")] /\
  performs (dispatch sample_env sample_opts (LocalTimeout 0)) paired_busy [].
Proof.
  destruct (C3_teardown_sequence sample_env sample_opts paired 0) as [Hidle _].
  assert (Hc : connecting paired = false) by (vm_compute; reflexivity).
  destruct (Hidle Hc) as [Htimer Hdata].
  destruct (C3_teardown_sequence sample_env sample_opts paired_busy 0) as [_ Hbusy].
  assert (Hb : connecting paired_busy = true) by (vm_compute; reflexivity).
  assert (Hl : listens paired 0 l_onTimeout)
    by (eexists; split; vm_compute; reflexivity).
  assert (Hi : injector_armed paired 0)
    by (eexists; split; vm_compute; reflexivity).
  assert (Hm : infix (bytes "408 Request Timeout") (bytes "HTTP/1.1 408 Request Timeout"))
    by (exists (bytes "HTTP/1.1 "), []; vm_compute; reflexivity).
  assert (Hk : onClose paired = [0%nat]) by (vm_compute; reflexivity).
  split; [|split].
  - exact (proj2 (Htimer Hl) Hk).
  - exact (proj2 (Hdata _ Hi Hm) Hk).
  - exact (proj1 (Hbusy Hb)).
Defined.

(** ** The [connecting] flag *)

(** C4.  Every remote 'data' event sets [connecting] to true; no event
    handler, whether it returns or throws, sets it back to false; so in a
    session in which a remote chunk has arrived, every later local
    'timeout' event and every later chunk from a local socket, with or
    without the 408 marker, takes the branch that does nothing: no call is
    made other than handing the chunk on, the remote is not ended and its
    close listeners stay as they are. *)
Theorem C4_connecting_is_never_reset env opt :
  (forall data s,
     exists s', dispatch env opt (RemoteData data) s = Ok tt s' /\
                connecting s' = true) /\
  (forall ev s,
     connecting s = true -> connecting (state_of (dispatch env opt ev s)) = true) /\
  (forall evs1 data evs2 s0 s,
     run env opt (evs1 ++ RemoteData data :: evs2) s0 = Ok tt s ->
     connecting s = true /\
     (forall k, exists s',
        dispatch env opt (LocalTimeout k) s = Ok tt s' /\
        log s' = log s /\ ended s' = ended s /\ onClose s' = onClose s) /\
     (forall k chunk, exists s',
        dispatch env opt (LocalData k chunk) s = Ok tt s' /\
        (log s' = log s \/ log s' = log s ++ [Push k chunk]) /\
        ended s' = ended s /\ onClose s' = onClose s)).
Proof.
  split; [|split].
  - intros data s. rewrite on_remote_data_eval. eexists. split; reflexivity.
  - intros ev s. apply (pres_dispatch_connecting env opt ev s).
  - intros evs1 data evs2 s0 s Hrun.
    assert (Hc : connecting s = true).
    { rewrite run_app in Hrun.
      destruct (run env opt evs1 s0) as [[] s1|]; [|discriminate].
      cbn [run] in Hrun. unfold mbind, M_bind in Hrun.
      rewrite on_remote_data_eval in Hrun.
      match type of Hrun with run _ _ _ ?s2 = _ =>
        pose proof (pres_run env opt (fun s => connecting s = true) evs2
                      (pres_dispatch_connecting env opt) s2 eq_refl) as H
      end.
      cbv beta in H. rewrite Hrun in H. exact H. }
    split; [exact Hc|]. split.
    + intros k. apply dispatch_timeout_connecting. exact Hc.
    + intros k chunk. apply dispatch_data_connecting. exact Hc.
Qed.

(** A request arrives, the local server then answers 408 and its idle
    timer fires: neither tears the pairing down. *)
Lemma C4_connecting_is_never_reset_witness :
  connecting paired_busy = true /\
  (exists s', dispatch sample_env sample_opts (LocalTimeout 0) paired_busy = Ok tt s' /\
              log s' = log paired_busy /\ ended s' = ended paired_busy /\
              onClose s' = onClose paired_busy) /\
  (exists s', dispatch sample_env sample_opts
                (LocalData 0 (bytes "HTTP/1.1 408 Request Timeout")) paired_busy
              = Ok tt s' /\
              (log s' = log paired_busy \/
               log s' = log paired_busy ++
                        [Push 0 (bytes "HTTP/1.1 408 Request Timeout")]) /\
              ended s' = ended paired_busy /\ onClose s' = onClose paired_busy).
Proof.
  assert (Hrun : run sample_env sample_opts
                   ([RemoteConnect; LocalConnect 0]
                      ++ RemoteData (bytes "GET / HTTP/1.1") :: [])
                   (opened sample_opts) = Ok tt paired_busy)
    by (vm_compute; reflexivity).
  destruct (proj2 (proj2 (C4_connecting_is_never_reset sample_env sample_opts))
              _ _ _ _ _ Hrun) as (H1 & H2 & H3).
  split; [exact H1|]. split; [exact (H2 0%nat) | exact (H3 0%nat _)].
Defined.

(** ** Errors of the local socket *)

Section LocalErrors.
Context (env : Env) (opt : Opts).

(** C1.  On a local 'error' whose code is neither ECONNREFUSED nor
    ECONNRESET the handler ends the local socket, removes the remote's
    close listener of the pairing and ends the remote, and sets no retry
    timer.  It does not emit [dead], and since the close listener is gone
    the 'close' of the remote that follows emits nothing either: the
    teardown does not reach the caller as a [dead] event. *)
Theorem C1_fatal_local_error_ends_remote_without_dead (s : State) (k : nat) (code : string) :
  listens s k l_onError -> ~ transient code ->
  performs (dispatch env opt (LocalError k code)) s
    [LocalEnd k; RemoteRemoveListenerClose k; RemoteEnd] /\
  (exists s', dispatch env opt (LocalError k code) s = Ok tt s' /\
              timers s' = timers s /\ ended s' = true /\
              exists l, locals s' !! k = Some l /\ l_ended l = true) /\
  (onClose s = [k] ->
   exists s', run env opt [LocalError k code; RemoteClose] s = Ok tt s' /\
              log s' = log s ++ [LocalEnd k; RemoteRemoveListenerClose k; RemoteEnd] /\
              emitted (log s') = emitted (log s)).
Proof.
  intros Hl Hc. pose proof (dispatch_local_error_fatal env opt k code s Hl Hc) as E.
  split; [eexists; split; [exact E | reflexivity]|]. split.
  - eexists. split; [exact E|]. split; [reflexivity|]. split; [reflexivity|].
    destruct Hl as (l & Hl & _). cbn [locals set_log set_ended set_onClose set_locals].
    rewrite !list_lookup_alter_eq, Hl. eexists. split; reflexivity.
  - intros Hk. cbn [run]. rewrite (bind_ok _ _ _ _ _ E).
    match goal with |- context [(dispatch env opt RemoteClose ≫= _) ?s1] =>
      assert (Hnone : onClose s1 = [])
        by (cbn [onClose set_log set_ended set_onClose]; rewrite Hk;
            apply removeListener_single);
      rewrite (bind_ok _ _ _ _ _ (dispatch_close_no_listener env opt s1 Hnone))
    end.
    eexists. split; [reflexivity|]. split; [reflexivity|].
    cbn [log set_log set_onClose set_destroyed].
    rewrite emitted_app. cbn [emitted]. apply app_nil_r.
Qed.

End LocalErrors.

(** The first pairing fails with EPIPE; the remote then closes. *)
Lemma C1_fatal_local_error_ends_remote_without_dead_witness :
  exists s',
    run sample_env sample_opts [LocalError 0 "EPIPE"; RemoteClose] paired = Ok tt s' /\
    log s' = log paired ++ [LocalEnd 0; RemoteRemoveListenerClose 0; RemoteEnd] /\
    emitted (log s') = emitted (log paired).
Proof.
  assert (Hl : listens paired 0 l_onError)
    by (eexists; split; vm_compute; reflexivity).
  assert (Hc : ~ transient "EPIPE") by (intros [H | H]; discriminate H).
  assert (Hk : onClose paired = [0%nat]) by (vm_compute; reflexivity).
  exact (proj2 (proj2 (C1_fatal_local_error_ends_remote_without_dead
                         sample_env sample_opts paired 0 "EPIPE" Hl Hc)) Hk).
Defined.

(** ** Certificate files *)

Section Certificates.
Context (env : Env) (opt : Opts).

Lemma localConnection_fails :
  local_https opt = true -> allow_invalid_cert opt = false ->
  unreadable env (local_cert opt) \/ unreadable env (local_key opt) ->
  exists e, localConnection env opt = inl e.
Proof.
  intros Hh Ha Hu. unfold localConnection, getLocalCertOpts, allowInvalidCert.
  rewrite Hh, Ha. unfold mbind, E_bind.
  destruct Hu as [[e He] | [e He]].
  - rewrite He. eauto.
  - destruct (readFile env (local_cert opt)); [eauto|]. rewrite He. eauto.
Qed.


End Certificates.



(** ** Errors of the remote socket *)

Section RemoteErrors.
Context (env : Env) (opt : Opts).

(** Once the remote socket is destroyed it stays so, and no local socket
    is created any more. *)
Lemma pres_connLocal_destroyed (c : list nat) :
  pres (fun s => destroyed s = true /\ created (log s) = c) (connLocal env opt).
Proof.
  intros s [Hd Hc]. rewrite connLocal_destroyed by exact Hd.
  cbn [state_of destroyed log set_log]. split; [exact Hd|].
  rewrite created_app, Hc. apply app_nil_r.
Qed.

Lemma pres_dispatch_destroyed (c : list nat) ev :
  pres (fun s => destroyed s = true /\ created (log s) = c) (dispatch env opt ev).
Proof.
  destruct ev; unfold_handlers;
    repeat first [apply pres_connLocal_destroyed | pres_step | progress unfold_handlers];
    try match goal with H : _ /\ _ |- _ => destruct H as [Hd Hc] end;
    try (split; [solve [assumption | reflexivity]|]);
    cbn [log destroyed set_log set_connecting set_destroyed set_ended set_paused
         set_onConnect set_onClose set_locals set_timers set_now];
    rewrite ?created_app, ?Hc; cbn [created]; rewrite ?app_nil_r; reflexivity.
Qed.

Lemma append_assoc (a b c : string) :
  ((a ++ b) ++ c)%string = (a ++ (b ++ c))%string.
Proof.
  induction a as [|x a IH]; [reflexivity|].
  change (String x ((a ++ b) ++ c) = String x (a ++ (b ++ c)))%string.
  rewrite IH. reflexivity.
Qed.

Lemma on_remote_error_eval code s :
  dispatch env opt (RemoteError code) s =
  Ok tt (set_log (log s ++ (if String.eqb code "ECONNREFUSED"
                            then [Emit (error (refused_message opt)); RemoteEnd]
                            else [RemoteEnd]))
           (set_ended true (set_destroyed true s))).
Proof.
  cbn [dispatch]. unfold on_remote_error.
  destruct (String.eqb code "ECONNREFUSED"); rewrite ?snoc2; reflexivity.
Qed.


End RemoteErrors.


(** ** The session idle timer *)

Section IdleTimer.
Context (env : Env) (opt : Opts).

Lemma fl_eq x y : rounding_ok env -> (x == y)%Q -> (fl env x == fl env y)%Q.
Proof.
  intros (Hm & _) E. apply Qle_antisym; apply Hm; rewrite E; apply Qle_refl.
Qed.

Lemma actualTimeoutValue_bounds (r : Q) :
  rounding_ok env -> (0 <= r)%Q -> (r < 1)%Q ->
  (30000 <= actualTimeoutValue env r <= 80000)%Q.
Proof.
  intros Hok H0 H1. pose proof Hok as (Hm & E0 & E3 & E5 & E8).
  unfold actualTimeoutValue.
  assert (Hd : (fl env (80000 - 30000) == 50000)%Q).
  { rewrite <- E5. apply fl_eq; [exact Hok | reflexivity]. }
  assert (Hp0 : (0 <= fl env (r * fl env (80000 - 30000)))%Q).
  { apply Qle_trans with (fl env 0); [rewrite E0; apply Qle_refl|].
    apply Hm. rewrite Hd. apply Qmult_le_0_compat; [exact H0 | discriminate]. }
  assert (Hp1 : (fl env (r * fl env (80000 - 30000)) <= 50000)%Q).
  { apply Qle_trans with (fl env 50000); [|rewrite E5; apply Qle_refl].
    apply Hm. rewrite Hd.
    apply Qle_trans with (1 * 50000)%Q; [|apply Qle_refl].
    apply Qmult_le_compat_r; [apply Qlt_le_weak; exact H1 | discriminate]. }
  split.
  - apply Qle_trans with (fl env 30000); [rewrite E3; apply Qle_refl|].
    apply Hm. apply Qle_trans with (0 + 30000)%Q; [apply Qle_refl|].
    apply Qplus_le_compat; [exact Hp0 | apply Qle_refl].
  - apply Qle_trans with (fl env 80000); [|rewrite E8; apply Qle_refl].
    apply Hm. apply Qle_trans with (50000 + 30000)%Q; [|apply Qle_refl].
    apply Qplus_le_compat; [exact Hp1 | apply Qle_refl].
Qed.


End IdleTimer.


(** ** The retry loop *)

Section Retry.
Context (env : Env) (opt : Opts).

Lemma connLocal_awaiting s c :
  destroyed s = false -> timers s = [] -> localConnection env opt = inr c ->
  exists s',
    connLocal env opt s = Ok tt s' /\
    awaiting (length (locals s)) s' /\
    emitted (log s') = emitted (log s) /\
    created (log s') = created (log s) ++ [length (locals s)] /\
    scheduled (log s') = scheduled (log s) /\
    now s' = now s.
Proof.
  intros Hd Ht Hc. eexists. split; [apply connLocal_alive; eassumption|].
  unfold awaiting, listens.
  cbn [log locals timers destroyed now set_log set_locals set_onClose set_paused].
  split; [|split; [|split; [|split]]].
  - split; [exact Hd|]. split; [rewrite length_app; simpl; lia|].
    split; [|exact Ht]. eexists. rewrite lookup_app_r by reflexivity.
    rewrite Nat.sub_diag. split; [reflexivity|].
    unfold fresh_local. destruct (session_connection opt); reflexivity.
  - rewrite emitted_app. destruct (session_connection opt); apply app_nil_r.
  - rewrite created_app. destruct (session_connection opt); reflexivity.
  - rewrite scheduled_app. destruct (session_connection opt); apply app_nil_r.
  - reflexivity.
Qed.

(** One round: a transient failure of the last local socket, the back-off,
    and the retry. *)
Lemma retry_round_spec n code c s :
  awaiting n s -> transient code -> localConnection env opt = inr c ->
  exists s',
    run env opt (retry_round n code) s = Ok tt s' /\
    awaiting (S n) s' /\
    emitted (log s') = emitted (log s) /\
    created (log s') = created (log s) ++ [S n] /\
    scheduled (log s') = scheduled (log s) ++ [1000].
Proof.
  intros (Hd & Hlen & Hl & Ht) Hcode Hc. unfold retry_round. cbn [run].
  rewrite (bind_ok _ _ _ _ _ (dispatch_local_error_transient env opt n code s Hl Hcode)).
  set (s1 := set_log _ _).
  rewrite (bind_ok _ _ _ _ _ (eq_refl : dispatch env opt (Elapse 1000) s1 = Ok tt _)).
  set (s2 := set_now _ s1).
  assert (Hdue : dispatch env opt (TimerFire 0) s2 =
                 connLocal env opt (set_timers (delete 0%nat (timers s2)) s2)).
  { apply (dispatch_timer_due env opt 0 (now s + 1000) s2).
    - subst s2 s1. cbn [timers set_now set_log set_timers]. rewrite Ht. reflexivity.
    - subst s2 s1. cbn [now set_now set_log set_timers set_onClose set_locals]. lia. }
  destruct (connLocal_awaiting (set_timers (delete 0%nat (timers s2)) s2) c)
    as (s3 & E3 & Ha & He & Hcr & Hsc & _).
  { exact Hd. }
  { subst s2 s1. cbn [timers set_now set_log set_timers]. rewrite Ht. reflexivity. }
  { exact Hc. }
  rewrite <- Hdue in E3. rewrite (bind_ok _ _ _ _ _ E3).
  exists s3. split; [reflexivity|].
  assert (Hlen' : length (locals (set_timers (delete 0%nat (timers s2)) s2)) = S n).
  { subst s2 s1. cbn [locals set_now set_log set_timers set_onClose set_locals].
    rewrite !length_alter. exact Hlen. }
  rewrite Hlen' in Ha, Hcr. split; [exact Ha|].
  subst s2 s1. cbn [log set_now set_log set_timers] in He, Hcr, Hsc.
  rewrite emitted_app in He. rewrite created_app in Hcr. rewrite scheduled_app in Hsc.
  cbn [emitted created scheduled] in He, Hcr, Hsc. rewrite app_nil_r in He, Hcr.
  auto.
Qed.

Lemma retries_spec codes c : forall n s,
  awaiting n s -> Forall transient codes -> localConnection env opt = inr c ->
  exists s',
    run env opt (retries n codes) s = Ok tt s' /\
    awaiting (n + length codes) s' /\
    emitted (log s') = emitted (log s) /\
    created (log s') = created (log s) ++ seq (S n) (length codes) /\
    scheduled (log s') = scheduled (log s) ++ repeat 1000 (length codes).
Proof.
  induction codes as [|code codes IH]; intros n s Ha Hcodes Hc.
  - exists s. cbn [retries run length seq repeat].
    rewrite Nat.add_0_r, !app_nil_r. auto.
  - inversion Hcodes as [|? ? Hcode Hrest]; subst.
    destruct (retry_round_spec n code c s Ha Hcode Hc) as (s1 & E1 & Ha1 & He1 & Hc1 & Hs1).
    destruct (IH (S n) s1 Ha1 Hrest Hc) as (s2 & E2 & Ha2 & He2 & Hc2 & Hs2).
    exists s2. cbn [retries]. rewrite run_app, E1, E2.
    split; [reflexivity|].
    replace (n + length (code :: codes))%nat with (S n + length codes)%nat
      by (simpl; lia).
    split; [exact Ha2|]. split; [congruence|].
    rewrite Hc2, Hc1, Hs2, Hs1, <- !app_assoc. split; reflexivity.
Qed.

(** C5.  On a local 'error' with code ECONNREFUSED or ECONNRESET the
    handler sets exactly one timer for [connLocal], 1000 ms ahead, and emits
    nothing.  The timer does nothing before the 1000 ms have elapsed.  Once
    they have, with the remote alive (and the local connection options
    available) [connLocal] makes the next local attempt and emits no
    [dead]; with the remote destroyed it emits [dead] and makes no attempt.
    There is no bound on the rounds: for every list of such failures, one
    per attempt, the session makes one more attempt than there were
    failures, each retry scheduled once with delay 1000, and [open] stays
    the only event emitted. *)
Theorem C5_transient_local_error_retries :
  (forall s k code,
     listens s k l_onError -> transient code ->
     exists s',
       dispatch env opt (LocalError k code) s = Ok tt s' /\
       log s' = log s ++ [LocalEnd k; RemoteRemoveListenerClose k; SetTimeout 1000] /\
       timers s' = timers s ++ [now s + 1000]) /\
  (forall s i due,
     timers s !! i = Some due -> now s < due ->
     dispatch env opt (TimerFire i) s = Ok tt s) /\
  (forall s i due c,
     timers s !! i = Some due -> due <= now s ->
     destroyed s = false -> localConnection env opt = inr c ->
     exists s',
       dispatch env opt (TimerFire i) s = Ok tt s' /\
       created (log s') = created (log s) ++ [length (locals s)] /\
       emitted (log s') = emitted (log s) /\
       timers s' = delete i (timers s)) /\
  (forall s i due,
     timers s !! i = Some due -> due <= now s -> destroyed s = true ->
     exists s',
       dispatch env opt (TimerFire i) s = Ok tt s' /\
       log s' = log s ++ [Emit dead] /\
       locals s' = locals s /\ timers s' = delete i (timers s)) /\
  (forall codes c,
     Forall transient codes -> localConnection env opt = inr c ->
     exists s',
       run env opt (RemoteConnect :: retries 0 codes) (opened opt) = Ok tt s' /\
       created (log s') = seq 0 (S (length codes)) /\
       scheduled (log s') = repeat 1000 (length codes) /\
       emitted (log s') = [open_ev] /\
       timers s' = [] /\ destroyed s' = false).
Proof.
  split; [|split; [|split; [|split]]].
  - intros s k code Hl Hc. eexists.
    split; [apply dispatch_local_error_transient; assumption|]. split; reflexivity.
  - intros s i due Ht Hd. apply (dispatch_timer_early env opt i due s Ht Hd).
  - intros s i due c Ht Hdue Hd Hc.
    rewrite (dispatch_timer_due env opt i due s Ht Hdue).
    eexists. split; [apply connLocal_alive; [exact Hd | exact Hc]|].
    cbn [log locals timers set_log set_locals set_onClose set_paused set_timers].
    rewrite created_app, emitted_app.
    destruct (session_connection opt); cbn [created emitted app];
      rewrite ?app_nil_r; auto.
  - intros s i due Ht Hdue Hd.
    rewrite (dispatch_timer_due env opt i due s Ht Hdue).
    eexists. split; [apply connLocal_destroyed; exact Hd|].
    split; [reflexivity|]. split; reflexivity.
  - intros codes c Hcodes Hc. cbn [run].
    assert (E0 : dispatch env opt RemoteConnect (opened opt) =
                 connLocal env opt
                   (set_log (log (opened opt) ++ [Emit open_ev])
                      (set_onConnect false (opened opt)))) by reflexivity.
    destruct (connLocal_awaiting
                (set_log (log (opened opt) ++ [Emit open_ev])
                   (set_onConnect false (opened opt))) c eq_refl eq_refl Hc)
      as (s1 & E1 & Ha1 & He1 & Hc1 & Hs1 & _).
    rewrite <- E0 in E1. rewrite (bind_ok _ _ _ _ _ E1).
    destruct (retries_spec codes c 0 s1 Ha1 Hcodes Hc) as (s2 & E2 & Ha2 & He2 & Hc2 & Hs2).
    exists s2. split; [exact E2|].
    rewrite Hc2, Hc1, Hs2, Hs1, He2, He1.
    destruct Ha2 as (Hd2 & _ & _ & Ht2). auto.
Qed.

End Retry.

(** A refused and a reset local connection are each retried once, one
    second later, and nothing but [open] is emitted; a retry that finds the
    remote destroyed emits [dead] and stops. *)
Lemma C5_transient_local_error_retries_witness :
  (exists s',
     dispatch sample_env sample_opts (LocalError 0 "ECONNREFUSED") paired = Ok tt s' /\
     log s' = log paired ++ [LocalEnd 0; RemoteRemoveListenerClose 0; SetTimeout 1000] /\
     timers s' = timers paired ++ [now paired + 1000]) /\
  (exists s',
     dispatch sample_env sample_opts (TimerFire 0) stranded = Ok tt s' /\
     log s' = log stranded ++ [Emit dead] /\
     locals s' = locals stranded /\ timers s' = delete 0%nat (timers stranded)) /\
  (exists s',
     run sample_env sample_opts
       (RemoteConnect :: retries 0 ["ECONNREFUSED"; "ECONNRESET"]%string)
       (opened sample_opts) = Ok tt s' /\
     created (log s') = seq 0 3 /\
     scheduled (log s') = repeat 1000 2 /\
     emitted (log s') = [open_ev] /\
     timers s' = [] /\ destroyed s' = false).
Proof.
  destruct (C5_transient_local_error_retries sample_env sample_opts)
    as (Herr & _ & _ & Hdead & Hloop).
  assert (Hl : listens paired 0 l_onError)
    by (eexists; split; vm_compute; reflexivity).
  assert (Ht : timers stranded !! 0%nat = Some 1000) by (vm_compute; reflexivity).
  assert (Hn : 1000 <= now stranded) by (vm_compute; discriminate).
  assert (Hd : destroyed stranded = true) by (vm_compute; reflexivity).
  assert (Hc : localConnection sample_env sample_opts = inr (NetConnect "localhost" 8080))
    by (vm_compute; reflexivity).
  assert (Hcodes : Forall transient ["ECONNREFUSED"; "ECONNRESET"]%string).
  { constructor; [left; reflexivity|]. constructor; [right; reflexivity|]. constructor. }
  split; [|split].
  - exact (Herr paired 0%nat "ECONNREFUSED"%string Hl (or_introl eq_refl)).
  - exact (Hdead stranded 0%nat 1000 Ht Hn Hd).
  - exact (Hloop _ _ Hcodes Hc).
Defined.
